(** * The task engine of codecreationlabs/async, embedded in Rocq

    The development follows the package [task] (the sequential engine with
    [Parameters], [WithRevertFunc], [Revert] and [Run]):

    - values, errors, [context.Context] and [DecodeCtx];
    - the [Task] struct, the builder ([New], [AddSubtasks]) over a store of
      tasks addressed by pointer, and the process-wide [counter];
    - [Revert] and [Run], the two queue loops, over task trees; [Run] also
      tracks the backing array of the slice its caller handed in. *)

From Stdlib Require Import ZArith Lia List String.
From stdpp Require Import base tactics option list strings pretty.

Local Open Scope string_scope.
Local Open Scope list_scope.

(** ** Values and errors *)

(** An [interface{}] value.  The engine never inspects values; the tests and
    examples store [nil], [int]s and strings in them. *)
Inductive value : Type :=
| VNil
| VInt (n : Z)
| VString (s : string).

(** An [error] built by [errors.New] or [fmt.Errorf]: a message. *)
Definition error : Type := string.

(** Go's [int] and [int64] are 64-bit two's complement. *)
Definition wrap64 (z : Z) : Z := ((z + 2 ^ 63) mod 2 ^ 64 - 2 ^ 63)%Z.

Definition int_add (a b : Z) : Z := wrap64 (a + b)%Z.

(** A [*Task]: the address of a task struct. *)
Abbreviation ptr := nat (only parsing).

(** [type TaskContext struct { Parent *Task; Task *Task }].  [Parent] is a
    nil pointer for a root. *)
Module TaskContext.
Record t : Type := mk { Parent : option ptr; Task : ptr }.
End TaskContext.

(** ** [context.Context] *)

(** Context keys are compared as interface values: dynamic type and value.
    [CtxKey s] is a key of type [task.CtxKey]; [OtherKey ty s] a key of any
    other type [ty]. *)
Inductive ckey : Type :=
| CtxKey (s : string)
| OtherKey (ty s : string).

Definition ckey_eqb (a b : ckey) : bool :=
  match a, b with
  | CtxKey s, CtxKey s' => String.eqb s s'
  | OtherKey ty s, OtherKey ty' s' => String.eqb ty ty' && String.eqb s s'
  | _, _ => false
  end.

(** What a context binds a key to: a [*TaskContext] (the struct is never
    written after it is built, so the pointer is modelled by its pointee) or
    a value of another type. *)
Inductive cval : Type :=
| CTaskContext (tc : TaskContext.t)
| COther (v : value).

Module context.
(** The non-nil contexts the package builds and receives. *)
Inductive Context : Type :=
| Background
| WithValue (parent : Context) (key : ckey) (val : cval).

(** [ctx.Value(key)]: the innermost binding of [key]; [None] is the nil
    interface. *)
Fixpoint Value (ctx : Context) (key : ckey) : option cval :=
  match ctx with
  | Background => None
  | WithValue parent k v => if ckey_eqb k key then Some v else Value parent key
  end.
End context.

(** A Go call that returns a pair [(T, error)]: the result, or the error. *)
Inductive result (A : Type) : Type :=
| Ok (a : A)
| Err (e : error).
Arguments Ok {A} a.
Arguments Err {A} e.

(** [func DecodeCtx(ctx context.Context)], returning a [*TaskContext] and an
    [error] *)
Definition DecodeCtx (ctx : context.Context) : result TaskContext.t :=
  match context.Value ctx (CtxKey "ctx") with
  | Some (CTaskContext tc) => Ok tc          (* the type assertion holds *)
  | _ => Err "no context found"
  end.

(** [func MustDecodeCtx(ctx context.Context) *TaskContext]: [None] is the
    panic. *)
Definition MustDecodeCtx (ctx : context.Context) : option TaskContext.t :=
  match DecodeCtx ctx with
  | Ok tc => Some tc
  | Err _ => None
  end.

(** ** Tasks *)

(** What a call of a [TaskFunc] does: it returns [(interface{}, error)], or
    it panics. *)
Inductive outcome : Type :=
| Returns (val : value) (err : option error)
| Panics.

(** [type TaskFunc func(ctx context.Context, values ...interface{}) (interface{}, error)].
    The context argument is the task's [Context] field, nil ([None]) until
    [New] binds it. *)
Definition TaskFunc : Type := option context.Context -> list value -> outcome.

(** [type Task struct]; [child] is how a subtask is referred to: by pointer
    in the store the builder works on, by the subtree itself in a task
    tree.  [Run] and [Revert] are nil ([None]) until configured. *)
Module Task.
Record t (child : Type) : Type := mk {
  ID : string;
  Parameters : list value;
  Context : option context.Context;
  Subtasks : list child;
  Run : option TaskFunc;
  Revert : option TaskFunc
}.
Arguments mk {child}.
Arguments ID {child}.
Arguments Parameters {child}.
Arguments Context {child}.
Arguments Subtasks {child}.
Arguments Run {child}.
Arguments Revert {child}.

Definition set_ID {child} (s : string) (x : t child) : t child :=
  mk s (Parameters x) (Context x) (Subtasks x) (Run x) (Revert x).
Definition set_Parameters {child} (ps : list value) (x : t child) : t child :=
  mk (ID x) ps (Context x) (Subtasks x) (Run x) (Revert x).
Definition set_Context {child} (c : option context.Context) (x : t child) : t child :=
  mk (ID x) (Parameters x) c (Subtasks x) (Run x) (Revert x).
Definition set_Subtasks {child child'} (st : list child') (x : t child) : t child' :=
  mk (ID x) (Parameters x) (Context x) st (Run x) (Revert x).
Definition set_Run {child} (f : option TaskFunc) (x : t child) : t child :=
  mk (ID x) (Parameters x) (Context x) (Subtasks x) f (Revert x).
Definition set_Revert {child} (f : option TaskFunc) (x : t child) : t child :=
  mk (ID x) (Parameters x) (Context x) (Subtasks x) (Run x) f.
End Task.

(** A task struct in the store: its subtasks are pointers. *)
Abbreviation Task := (Task.t ptr) (only parsing).

(** [type TaskConfigFunc func(t *Task)]: a configuration function updates the
    struct under construction. *)
Definition TaskConfigFunc : Type := Task -> Task.

Definition WithFunc (f : TaskFunc) : TaskConfigFunc := Task.set_Run (Some f).
Definition WithRevertFunc (f : TaskFunc) : TaskConfigFunc := Task.set_Revert (Some f).
Definition WithParameters (parameters : list value) : TaskConfigFunc :=
  Task.set_Parameters parameters.

(** ** The builder, over a store *)

(** The package state: the task structs allocated so far (a [*Task] is an
    index into [heap]; structs are never freed), and the [atomic.Int64]
    [counter]. *)
Record state : Type := mkState {
  heap : list Task;
  counter : Z
}.

Definition init_state : state := mkState [] 0%Z.

(** [fmt.Sprintf("task_%d", n)] *)
Definition task_id (n : Z) : string := "task_" +:+ pretty n.

(** The body of [New] once [counter.Load()] has returned [n]: the struct is
    allocated and configured, its context bound, and [counter.Add(1)]
    executed. *)
Definition New_from (n : Z) (ctx : context.Context) (cfgs : list TaskConfigFunc)
    (s : state) : ptr * state :=
  let taskID := task_id n in
  let p : ptr := length (heap s) in                           (* a fresh address *)
  let t0 : Task := Task.mk taskID [] None [] None None in     (* &Task{ID: taskID} *)
  let t1 := fold_left (fun t cfg => cfg t) cfgs t0 in         (* cfg(t) *)
  let valueContext :=
    context.WithValue ctx (CtxKey "ctx")
      (CTaskContext (TaskContext.mk None p)) in
  let t2 := Task.set_Context (Some valueContext) t1 in
  (p, mkState (heap s ++ [t2]) (wrap64 (counter s + 1)%Z)).   (* counter.Add(1) *)

(** [func New(ctx context.Context, cfgs ...TaskConfigFunc) *Task], run
    without interference. *)
Definition New (ctx : context.Context) (cfgs : list TaskConfigFunc) (s : state)
  : ptr * state :=
  New_from (counter s) ctx cfgs s.                            (* counter.Load() *)

(** Calls of [New] from several goroutines.  [counter.Load()] and
    [counter.Add(1)] are two atomic operations; everything [New] does in
    between touches only the struct it has just allocated.  A goroutine is
    about to load, has loaded [n], or has returned its task. *)
Inductive goroutine : Type :=
| Ready (ctx : context.Context) (cfgs : list TaskConfigFunc)
| Loaded (n : Z) (ctx : context.Context) (cfgs : list TaskConfigFunc)
| Returned (p : ptr).

Record world : Type := mkWorld { shared : state; goroutines : list goroutine }.

(** Goroutine [i] performs its next atomic operation. *)
Definition step (w : world) (i : nat) : world :=
  match goroutines w !! i with
  | Some (Ready ctx cfgs) =>
      mkWorld (shared w) (<[i := Loaded (counter (shared w)) ctx cfgs]> (goroutines w))
  | Some (Loaded n ctx cfgs) =>
      let '(p, s') := New_from n ctx cfgs (shared w) in
      mkWorld s' (<[i := Returned p]> (goroutines w))
  | _ => w
  end.

(** A schedule names the goroutine that moves at each step. *)
Definition run_schedule (schedule : list nat) (w : world) : world :=
  fold_left step schedule w.

(** The identifier of the task a goroutine returned. *)
Definition returned_id (w : world) (i : nat) : option string :=
  match goroutines w !! i with
  | Some (Returned p) => Task.ID <$> heap (shared w) !! p
  | _ => None
  end.

(** The loop of [AddSubtasks]: each subtask's [Context] is rebound over the
    parent's current [Context].  [None] is a panic: a nil or dangling
    pointer is dereferenced, or [context.WithValue] gets a nil parent. *)
Fixpoint rebind (t : ptr) (st : list ptr) (h : list Task) : option (list Task) :=
  match st with
  | [] => Some h
  | subtask :: st' =>
      match h !! t, h !! subtask with
      | Some parent, Some sub =>
          match Task.Context parent with
          | Some pctx =>
              let c := context.WithValue pctx (CtxKey "ctx")
                         (CTaskContext (TaskContext.mk (Some t) subtask)) in
              rebind t st' (<[subtask := Task.set_Context (Some c) sub]> h)
          | None => None
          end
      | _, _ => None
      end
  end.

(** [func (t *Task) AddSubtasks(st ...*Task)] *)
Definition AddSubtasks (t : ptr) (st : list ptr) (s : state) : option state :=
  match rebind t st (heap s) with
  | Some h =>
      match h !! t with
      | Some parent =>
          Some (mkState
                  (<[t := Task.set_Subtasks (Task.Subtasks parent ++ st) parent]> h)
                  (counter s))
      | None => None
      end
  | None => None
  end.

(** ** Task trees *)

#[local] Set Warnings "-register-all".

(** A [*Task] whose subtasks form a tree: the address and the struct it
    points to, the subtasks being such pointers in turn. *)
Inductive TaskT : Type :=
| TaskAt (p : ptr) (t : Task.t TaskT).

Definition addr (x : TaskT) : ptr := match x with TaskAt p _ => p end.
Definition node (x : TaskT) : Task.t TaskT := match x with TaskAt _ t => t end.
Definition subtasks (x : TaskT) : list TaskT := Task.Subtasks (node x).

(** The number of tasks of a tree. *)
Fixpoint tree_size (x : TaskT) : nat :=
  match x with
  | TaskAt _ (Task.mk _ _ _ st _ _) => S (list_sum (map tree_size st))
  end.

Definition forest_size (ts : list TaskT) : nat := list_sum (map tree_size ts).

(** An element of a [[]*Task]: a pointer to a task, or nil. *)
Abbreviation cell := (option TaskT) (only parsing).

Definition cell_size (c : cell) : nat :=
  match c with Some x => tree_size x | None => 1 end.

Definition cells_size (q : list cell) : nat := list_sum (map cell_size q).

(** Reading the tree under a pointer out of the store, [depth] levels deep;
    [None] when a pointer dangles or the structure is deeper. *)
Fixpoint tree_of (depth : nat) (h : list Task) (p : ptr) : option TaskT :=
  match depth with
  | O => None
  | S depth' =>
      t ← h !! p;
      st ← mapM (tree_of depth' h) (Task.Subtasks t);
      Some (TaskAt p (Task.set_Subtasks st t))
  end.

(** ** What a call of the engine does *)

(** The calls of task functions, in the order they are made: whose function,
    with which arguments, and what it did. *)
Inductive event : Type :=
| EvRun (p : ptr) (ctx : option context.Context) (values : list value) (out : outcome)
| EvRevert (p : ptr) (ctx : option context.Context) (values : list value) (out : outcome).

(** How a call of the engine ends: it returns, it panics, or the model's
    iteration bound is reached. *)
Inductive exec (A : Type) : Type :=
| Done (a : A)
| Panic
| OutOfFuel.
Arguments Done {A} a.
Arguments Panic {A}.
Arguments OutOfFuel {A}.

(** ** [Revert] *)

Module Reverted.
Record t : Type := mk { calls : list event; ret : exec unit }.
Definition log (ev : event) (r : t) : t := mk (ev :: calls r) (ret r).
End Reverted.

(** The loop of [Revert]; [tasks] is the queue.  The slice is only read,
    resliced and appended to, so it is a list here. *)
Fixpoint Revert_loop (fuel : nat) (tasks : list cell) (values : list value)
  : Reverted.t :=
  match fuel with
  | O => Reverted.mk [] OutOfFuel
  | S fuel' =>
      match tasks with
      | [] => Reverted.mk [] (Done tt)                  (* len(tasks) == 0 *)
      | None :: _ => Reverted.mk [] Panic               (* task.Revert on a nil task *)
      | Some task :: tasks1 =>                          (* tasks = tasks[1:] *)
          match Task.Revert (node task) with
          | Some revert =>
              let out := revert (Task.Context (node task)) values in
              let ev := EvRevert (addr task) (Task.Context (node task)) values out in
              match out with
              | Panics => Reverted.mk [ev] Panic
              | Returns _ _ =>                          (* err is dropped: TODO *)
                  Reverted.log ev
                    (Revert_loop fuel' (tasks1 ++ map Some (subtasks task)) values)
              end
          | None =>
              Revert_loop fuel' (tasks1 ++ map Some (subtasks task)) values
          end
      end
  end.

(** [func Revert(tasks []*Task, values ...interface{})] *)
Definition Revert (tasks : list cell) (values : list value) : Reverted.t :=
  Revert_loop (S (cells_size tasks)) tasks values.

(** ** [Run] *)

(** The slice [tasks] of [Run].  It starts as the caller's slice, a window
    [off, off+len) of the caller's backing array [arr] whose capacity runs to
    the end of [arr]; once an [append] exceeds that capacity, Go moves the
    elements to a new array, which the caller cannot see. *)
Inductive tslice : Type :=
| InCaller (off len : nat)
| Moved (q : list cell).

(** The elements of the slice. *)
Definition contents (arr : list cell) (tasks : tslice) : list cell :=
  match tasks with
  | InCaller off len => take len (drop off arr)
  | Moved q => q
  end.

(** [tasks[0] = c] *)
Definition set_first (arr : list cell) (tasks : tslice) (c : cell)
  : list cell * tslice :=
  match tasks with
  | InCaller off len => (<[off := c]> arr, tasks)
  | Moved q => (arr, Moved (<[0 := c]> q))
  end.

(** [tasks[1:]] *)
Definition rest (tasks : tslice) : tslice :=
  match tasks with
  | InCaller off len => InCaller (S off) (len - 1)
  | Moved q => Moved (drop 1 q)
  end.

(** [append(tasks, xs...)]: in place while the capacity suffices, into a new
    array otherwise. *)
Definition append (arr : list cell) (tasks : tslice) (xs : list cell)
  : list cell * tslice :=
  match tasks with
  | InCaller off len =>
      if decide (off + len + length xs <= length arr)
      then (list_inserts (off + len) xs arr, InCaller off (len + length xs))
      else (arr, Moved (take len (drop off arr) ++ xs))
  | Moved q => (arr, Moved (q ++ xs))
  end.

(** [successfulTasks = append(successfulTasks[:1], successfulTasks...)]
    followed by [successfulTasks[0] = task].  The reslice of the empty slice
    exposes the zeroed first element of the array that [make] allocated;
    [append] copies as if its source were read first. *)
Definition prepend (successfulTasks : list cell) (task : TaskT) : list cell :=
  let first :=
    match successfulTasks with
    | [] => [None]
    | c :: _ => [c]
    end in
  <[0 := Some task]> (first ++ successfulTasks).

(** What [Run] returns: [([]interface{}, error)], each nil ([None]) or
    not. *)
Definition returned : Type := option (list value) * option error.

Module Ran.
(** [mem] is the caller's backing array after the call. *)
Record t : Type := mk { mem : list cell; calls : list event; ret : exec returned }.
Definition log (ev : event) (r : t) : t := mk (mem r) (ev :: calls r) (ret r).
End Ran.

(** The loop of [Run]. *)
Fixpoint Run_loop (fuel : nat) (arr : list cell) (tasks : tslice)
    (values result : list value) (successfulTasks : list cell) : Ran.t :=
  match fuel with
  | O => Ran.mk arr [] OutOfFuel
  | S fuel' =>
      match contents arr tasks with
      | [] => Ran.mk arr [] (Done (Some result, None))        (* return result, nil *)
      | c :: _ =>                                             (* task := tasks[0] *)
          let '(arr1, tasks1) := set_first arr tasks None in  (* tasks[0] = nil *)
          let tasks2 := rest tasks1 in                        (* tasks = tasks[1:] *)
          match c with
          | None => Ran.mk arr1 [] Panic                      (* task.Run on a nil task *)
          | Some task =>
              match Task.Run (node task) with
              | None => Ran.mk arr1 [] Panic                  (* call of a nil func *)
              | Some run =>
                  let out := run (Task.Context (node task)) values in
                  let ev := EvRun (addr task) (Task.Context (node task)) values out in
                  match out with
                  | Panics => Ran.mk arr1 [ev] Panic
                  | Returns _ (Some err) =>
                      let r := Revert successfulTasks values in
                      Ran.mk arr1 (ev :: Reverted.calls r)
                        match Reverted.ret r with
                        | Done _ => Done (None, Some err)     (* return nil, err *)
                        | Panic => Panic
                        | OutOfFuel => OutOfFuel
                        end
                  | Returns val None =>
                      let values' := values ++ [val] in
                      let result' := result ++ [val] in
                      let successfulTasks' := prepend successfulTasks task in
                      let '(arr2, tasks3) :=
                        append arr1 tasks2 (map Some (subtasks task)) in
                      Ran.log ev
                        (Run_loop fuel' arr2 tasks3 values' result' successfulTasks')
                  end
              end
          end
      end
  end.

(** [func Run(tasks []*Task, values ...interface{}) ([]interface{}, error)],
    called with the slice [arr[off : off+len]]. *)
Definition Run (arr : list cell) (off len : nat) (values : list value) : Ran.t :=
  Run_loop (S (cells_size (take len (drop off arr)))) arr (InCaller off len)
    values [] [].

(** [Run([]*Task{...}, values...)]: the call on a slice literal, whose
    capacity is its length. *)
Definition Run_literal (tasks : list TaskT) (values : list value) : Ran.t :=
  Run (map Some tasks) 0 (length tasks) values.

(** ** The order of the queue *)

(** [x] is a task of the tree under [y]: [y] itself or a descendant. *)
Inductive in_tree (x : TaskT) : TaskT -> Prop :=
| in_tree_here : in_tree x x
| in_tree_sub (y c : TaskT) : c ∈ subtasks y -> in_tree x c -> in_tree x y.

Definition in_forest (x : TaskT) (ts : list TaskT) : Prop :=
  exists r, r ∈ ts /\ in_tree x r.

(** The subtasks of a level, in attachment order. *)
Definition children (ts : list TaskT) : list TaskT := concat (map subtasks ts).

(** Level order: the tasks given, then their subtasks, then the subtasks of
    those, and so on, [depth] levels deep. *)
Fixpoint level_order (depth : nat) (ts : list TaskT) : list TaskT :=
  match depth with
  | O => []
  | S d => ts ++ level_order d (children ts)
  end.

(** Breadth first: all the levels of a forest. *)
Definition bfs (ts : list TaskT) : list TaskT := level_order (forest_size ts) ts.

(** Pre-order: a task, then the pre-order of each of its subtasks in turn. *)
Fixpoint preorder (x : TaskT) : list TaskT :=
  match x with
  | TaskAt _ (Task.mk _ _ _ st _ _) => x :: concat (map preorder st)
  end.

(** The order in which a first-in first-out queue that starts as [q] hands
    out tasks, each task's subtasks joining the back as it leaves. *)
Fixpoint visit (fuel : nat) (q : list TaskT) : list TaskT :=
  match fuel, q with
  | S fuel', t :: q' => t :: visit fuel' (q' ++ subtasks t)
  | _, _ => []
  end.

(** ** What the loops do along that order *)

(** The call [task.Revert(task.Context, values...)], when [Revert] is set. *)
Definition revert_call (values : list value) (t : TaskT) : option event :=
  match Task.Revert (node t) with
  | Some revert =>
      Some (EvRevert (addr t) (Task.Context (node t)) values
              (revert (Task.Context (node t)) values))
  | None => None
  end.

Definition revert_calls (values : list value) (l : list TaskT) : list event :=
  omap (revert_call values) l.

(** The value [task.Run(task.Context, values...)] returns ([nil] where it
    does not return one). *)
Definition run_value (t : TaskT) (values : list value) : value :=
  match Task.Run (node t) with
  | Some run =>
      match run (Task.Context (node t)) values with
      | Returns val _ => val
      | Panics => VNil
      end
  | None => VNil
  end.

(** The values the tasks of [l] produce when each is called in turn with
    [values] and the values produced before it. *)
Fixpoint produced (l : list TaskT) (values : list value) : list value :=
  match l with
  | [] => []
  | t :: l' => let val := run_value t values in val :: produced l' (values ++ [val])
  end.

(** [Run] along a fixed order [l] of tasks: the loop of [Run] with the queue
    discipline taken out. *)
Fixpoint run_list (l : list TaskT) (values result : list value)
    (successfulTasks : list cell) : list event * exec returned :=
  match l with
  | [] => ([], Done (Some result, None))
  | task :: l' =>
      match Task.Run (node task) with
      | None => ([], Panic)
      | Some run =>
          let out := run (Task.Context (node task)) values in
          let ev := EvRun (addr task) (Task.Context (node task)) values out in
          match out with
          | Panics => ([ev], Panic)
          | Returns _ (Some err) =>
              let r := Revert successfulTasks values in
              (ev :: Reverted.calls r,
               match Reverted.ret r with
               | Done _ => Done (None, Some err)
               | Panic => Panic
               | OutOfFuel => OutOfFuel
               end)
          | Returns val None =>
              let '(evs, e) :=
                run_list l' (values ++ [val]) (result ++ [val])
                  (Some task :: successfulTasks) in
              (ev :: evs, e)
          end
      end
  end.

(** A slice of the caller's array lies within it. *)
Definition wf_slice (arr : list cell) (tasks : tslice) : Prop :=
  match tasks with
  | InCaller off len => off + len <= length arr
  | Moved _ => True
  end.

(** How many elements of the caller's slice [q] the loop of [Run] takes while
    its queue is still in the caller's array, [spare] being the capacity of
    the slice beyond its length.  The loop takes the first element; it goes on
    to the next when the task taken returned without error and
    [append(tasks, task.Subtasks...)] fits the capacity left. *)
Fixpoint cleared (q : list cell) (spare : nat) (values : list value) : nat :=
  match q with
  | [] => 0
  | c :: q' =>
      S match c with
        | Some task =>
            match Task.Run (node task) with
            | Some run =>
                match run (Task.Context (node task)) values with
                | Returns val None =>
                    if decide (length (subtasks task) <= spare)
                    then cleared q' (spare - length (subtasks task)) (values ++ [val])
                    else 0
                | _ => 0
                end
            | None => 0
            end
        | None => 0
        end
  end.

(** ** Reading a trace *)

(** The task at [p] reached Succeeded: its [Run] was called and returned no
    error. *)
Definition succeeded (calls : list event) (p : ptr) : Prop :=
  exists ctx values val, EvRun p ctx values (Returns val None) ∈ calls.

(** The [Revert] of the task at [p] was invoked. *)
Definition reverted (calls : list event) (p : ptr) : Prop :=
  exists ctx values out, EvRevert p ctx values out ∈ calls.

Definition is_revert_of (p : ptr) (ev : event) : bool :=
  match ev with
  | EvRevert p' _ _ _ => Nat.eqb p p'
  | EvRun _ _ _ _ => false
  end.

(** How many times the [Revert] of the task at [p] was invoked. *)
Definition revert_count (calls : list event) (p : ptr) : nat :=
  length (filter (fun ev => is_revert_of p ev = true) calls).

(** The values a [Revert] call was given. *)
Definition revert_values (ev : event) : option (list value) :=
  match ev with
  | EvRevert _ _ values _ => Some values
  | EvRun _ _ _ _ => None
  end.

(** ** Properties of tasks *)

(** The calls [task.Run(task.Context, values...)] along [l], each task given
    [values] followed by the values produced before it, all return without
    error. *)
Fixpoint all_succeed (l : list TaskT) (values : list value) : bool :=
  match l with
  | [] => true
  | task :: l' =>
      match Task.Run (node task) with
      | Some run =>
          match run (Task.Context (node task)) values with
          | Returns val None => all_succeed l' (values ++ [val])
          | _ => false
          end
      | None => false
      end
  end.

(** The same calls return without error up to one that returns an error; no
    call before it panics, and each of these tasks has its [Run] set. *)
Fixpoint one_fails (l : list TaskT) (values : list value) : bool :=
  match l with
  | [] => false
  | task :: l' =>
      match Task.Run (node task) with
      | Some run =>
          match run (Task.Context (node task)) values with
          | Returns val None => one_fails l' (values ++ [val])
          | Returns _ (Some _) => true
          | Panics => false
          end
      | None => false
      end
  end.

(** The [Revert] function, when set, never panics. *)
Definition revert_returns (t : TaskT) : Prop :=
  forall revert, Task.Revert (node t) = Some revert ->
    forall ctx values, revert ctx values <> Panics.

(** ** States the builder reaches *)

(** [built s par]: [s] is reached from the initial state by calls of [New]
    and [AddSubtasks]; [par p] is the task that last attached [p] as a
    subtask, if any. *)
Inductive built : state -> (ptr -> option ptr) -> Prop :=
| built_init : built init_state (fun _ => None)
| built_New (s : state) (par : ptr -> option ptr)
    (ctx : context.Context) (cfgs : list TaskConfigFunc) :
    built s par -> built (New ctx cfgs s).2 par
| built_AddSubtasks (s s' : state) (par : ptr -> option ptr)
    (t : ptr) (st : list ptr) :
    built s par -> AddSubtasks t st s = Some s' ->
    built s' (fun p => if decide (p ∈ st) then Some t else par p).

(** The task at [p] has a context that decodes to [tc]. *)
Definition decodes (h : list Task) (p : ptr) (tc : TaskContext.t) : Prop :=
  exists task ctx,
    h !! p = Some task /\ Task.Context task = Some ctx /\ DecodeCtx ctx = Ok tc.

(** Two goroutines, each about to call [New(context.Background())] in a
    fresh process. *)
Definition two_callers : world :=
  mkWorld init_state [Ready context.Background []; Ready context.Background []].

(** A parent and a child: two calls of [New], then the first task attaches
    the second. *)
Definition family : option state :=
  let '(parent, s) := New context.Background [] init_state in
  let '(child, s) := New context.Background [] s in
  AddSubtasks parent [child] s.

(** ** Example trees *)

Definition constant (val : value) : TaskFunc := fun _ _ => Returns val None.

Definition failing (msg : error) : TaskFunc := fun _ _ => Returns VNil (Some msg).

(** [values[len(values)-1].(int)]; [None] is the panic of an empty slice or
    of a value that is not an [int]. *)
Definition last_int (values : list value) : option Z :=
  match last values with
  | Some (VInt n) => Some n
  | _ => None
  end.

(** [values[i].(int)] *)
Definition nth_int (i : nat) (values : list value) : option Z :=
  match values !! i with
  | Some (VInt n) => Some n
  | _ => None
  end.

Definition add_to (pick : list value -> option Z) (k : Z) : TaskFunc :=
  fun _ values =>
    match pick values with
    | Some num => Returns (VInt (int_add k num)) None
    | None => Panics
    end.

(** The loop of [TestSimpleTaskChain] over the results: [sum += val.(int)];
    [None] is the panic on a value that is not an [int]. *)
Definition int_sum (vals : list value) : option Z :=
  fold_left
    (fun sum val =>
       match sum, val with
       | Some acc, VInt num => Some (int_add acc num)
       | _, _ => None
       end)
    vals (Some 0%Z).

(** Scenario 1 as the specification words it: A returns 1, its subtask B the
    last value plus 2, B's subtask C the last value plus 3. *)
Definition chain : option TaskT :=
  let '(a, s) := New context.Background [WithFunc (constant (VInt 1))] init_state in
  let '(b, s) := New context.Background [WithFunc (add_to last_int 2)] s in
  let '(c, s) := New context.Background [WithFunc (add_to last_int 3)] s in
  s ← AddSubtasks b [c] s;
  s ← AddSubtasks a [b] s;
  tree_of 3 (heap s) a.

(** [TestSimpleTaskChain]: [foo] reads [values[0]], [bar] reads [values[1]]. *)
Definition test_chain : option TaskT :=
  let '(task, s) := New context.Background [WithFunc (constant (VInt 1))] init_state in
  let '(foo, s) := New context.Background [WithFunc (add_to (nth_int 0) 2)] s in
  let '(bar, s) := New context.Background [WithFunc (add_to (nth_int 1) 3)] s in
  s ← AddSubtasks foo [bar] s;
  s ← AddSubtasks task [foo] s;
  tree_of 3 (heap s) task.

(** A (1) with subtasks B (2) and C (3); B with subtask D (4). *)
Definition fork : option TaskT :=
  let '(a, s) := New context.Background [WithFunc (constant (VInt 1))] init_state in
  let '(b, s) := New context.Background [WithFunc (constant (VInt 2))] s in
  let '(c, s) := New context.Background [WithFunc (constant (VInt 3))] s in
  let '(d, s) := New context.Background [WithFunc (constant (VInt 4))] s in
  s ← AddSubtasks b [d] s;
  s ← AddSubtasks a [b; c] s;
  tree_of 3 (heap s) a.

(** A (1) with subtasks B (2) and C, whose [Run] fails; each has a [Revert],
    and that of A fails. *)
Definition saga : option TaskT :=
  let '(a, s) :=
    New context.Background
      [WithFunc (constant (VInt 1)); WithRevertFunc (failing "undo failed")]
      init_state in
  let '(b, s) :=
    New context.Background
      [WithFunc (constant (VInt 2)); WithRevertFunc (constant VNil)] s in
  let '(c, s) :=
    New context.Background
      [WithFunc (failing "boom"); WithRevertFunc (constant VNil)] s in
  s ← AddSubtasks a [b; c] s;
  tree_of 2 (heap s) a.

(** The same tree, no [Revert] failing. *)
Definition saga_clean : option TaskT :=
  let '(a, s) :=
    New context.Background
      [WithFunc (constant (VInt 1)); WithRevertFunc (constant VNil)]
      init_state in
  let '(b, s) :=
    New context.Background
      [WithFunc (constant (VInt 2)); WithRevertFunc (constant VNil)] s in
  let '(c, s) :=
    New context.Background
      [WithFunc (failing "boom"); WithRevertFunc (constant VNil)] s in
  s ← AddSubtasks a [b; c] s;
  tree_of 2 (heap s) a.

(** Two roots: A (1) with subtask C (3), and B (2). *)
Definition pair : option (TaskT * TaskT) :=
  let '(a, s) := New context.Background [WithFunc (constant (VInt 1))] init_state in
  let '(b, s) := New context.Background [WithFunc (constant (VInt 2))] s in
  let '(c, s) := New context.Background [WithFunc (constant (VInt 3))] s in
  s ← AddSubtasks a [c] s;
  ta ← tree_of 2 (heap s) a;
  tb ← tree_of 2 (heap s) b;
  Some (ta, tb).

(** ** More of the builder *)

(** A configuration function that leaves the identifier alone, as [WithFunc],
    [WithRevertFunc] and [WithParameters] do. *)
Definition keeps_ID (cfg : TaskConfigFunc) : Prop :=
  forall t : Task, Task.ID (cfg t) = Task.ID t.

(** States reached by calls of [New], one at a time and with configuration
    functions that leave the identifier alone, and of [AddSubtasks]. *)
Inductive built_plain : state -> Prop :=
| plain_init : built_plain init_state
| plain_New (s : state) (ctx : context.Context) (cfgs : list TaskConfigFunc) :
    built_plain s -> Forall keeps_ID cfgs -> built_plain (New ctx cfgs s).2
| plain_AddSubtasks (s s' : state) (t : ptr) (st : list ptr) :
    built_plain s -> AddSubtasks t st s = Some s' -> built_plain s'.

(** Two task structs that differ at most in [Context] and [Subtasks]. *)
Definition same_settings (a b : Task) : Prop :=
  Task.ID a = Task.ID b /\ Task.Parameters a = Task.Parameters b /\
  Task.Run a = Task.Run b /\ Task.Revert a = Task.Revert b.

(** The goroutines whose call of [New] has returned. *)
Fixpoint returned_count (gs : list goroutine) : nat :=
  match gs with
  | [] => 0
  | Returned _ :: gs' => S (returned_count gs')
  | _ :: gs' => returned_count gs'
  end.

Definition is_ready (g : goroutine) : Prop :=
  match g with Ready _ _ => True | _ => False end.

(** What every step of every goroutine keeps: the counter and the store
    count the calls that have returned, and the tasks returned are structs
    of the store, no two the same. *)
Definition counts (n : nat) (w : world) : Prop :=
  length (goroutines w) = n /\
  counter (shared w) = Z.of_nat (returned_count (goroutines w)) /\
  length (heap (shared w)) = returned_count (goroutines w) /\
  (forall i p, goroutines w !! i = Some (Returned p) ->
     p < length (heap (shared w))) /\
  (forall i j p, goroutines w !! i = Some (Returned p) ->
     goroutines w !! j = Some (Returned p) -> i = j).

(** ** More ways to read a trace *)

(** A call of a [Run] function that returned no error. *)
Definition is_success (ev : event) : Prop :=
  match ev with
  | EvRun _ _ _ (Returns _ None) => True
  | _ => False
  end.

(** A call of a [Revert] function. *)
Definition is_revert (ev : event) : Prop :=
  match ev with
  | EvRevert _ _ _ _ => True
  | EvRun _ _ _ _ => False
  end.

(** The calls [Run] makes along [l] when every call succeeds: each task is
    given [values] and the values produced before it. *)
Fixpoint run_calls (l : list TaskT) (values : list value) : list event :=
  match l with
  | [] => []
  | t :: l' =>
      let val := run_value t values in
      EvRun (addr t) (Task.Context (node t)) values (Returns val None)
        :: run_calls l' (values ++ [val])
  end.

(** The task whose function a call invoked, and the context it was given. *)
Definition event_task (ev : event) : ptr :=
  match ev with
  | EvRun p _ _ _ => p
  | EvRevert p _ _ _ => p
  end.

Definition event_ctx (ev : event) : option context.Context :=
  match ev with
  | EvRun _ ctx _ _ => ctx
  | EvRevert _ ctx _ _ => ctx
  end.

(** [later s s']: the builder takes the state [s] to [s'] by further calls
    of [New] and [AddSubtasks]. *)
Inductive later (s : state) : state -> Prop :=
| later_now : later s s
| later_New (s' : state) (ctx : context.Context) (cfgs : list TaskConfigFunc) :
    later s s' -> later s (New ctx cfgs s').2
| later_AddSubtasks (s' s'' : state) (t : ptr) (st : list ptr) :
    later s s' -> AddSubtasks t st s' = Some s'' -> later s s''.

(** The benchmark's task: made with parameters, then given a subtask. *)
Definition with_parameters : option state :=
  let '(a, s) :=
    New context.Background [WithParameters [VInt 5]; WithFunc (constant VNil)]
      init_state in
  let '(b, s) := New context.Background [WithFunc (constant VNil)] s in
  AddSubtasks a [b] s.

(** Who attached whom in [with_parameters]: the first task the second. *)
Definition first_attached_second (p : ptr) : option ptr :=
  if decide (p ∈ [1]) then Some 0 else None.

(** ** Shapes of trees *)

(** A chain: every task has at most one subtask. *)
Inductive linear : TaskT -> Prop :=
| linear_end (t : TaskT) : subtasks t = [] -> linear t
| linear_link (t c : TaskT) : subtasks t = [c] -> linear c -> linear t.

(** Tasks without subtasks. *)
Definition leaves (ts : list TaskT) : Prop :=
  Forall (fun t => subtasks t = []) ts.

(** A (1) with subtask B (2) with subtask C (3). *)
Definition line : option TaskT :=
  let '(a, s) := New context.Background [WithFunc (constant (VInt 1))] init_state in
  let '(b, s) := New context.Background [WithFunc (constant (VInt 2))] s in
  let '(c, s) := New context.Background [WithFunc (constant (VInt 3))] s in
  s ← AddSubtasks b [c] s;
  s ← AddSubtasks a [b] s;
  tree_of 3 (heap s) a.

(** Three tasks without subtasks, each with a [Revert]; the third fails. *)
Definition trio : option (list TaskT) :=
  let '(a, s) :=
    New context.Background
      [WithFunc (constant (VInt 1)); WithRevertFunc (constant VNil)]
      init_state in
  let '(b, s) :=
    New context.Background
      [WithFunc (constant (VInt 2)); WithRevertFunc (failing "undo failed")] s in
  let '(c, s) :=
    New context.Background
      [WithFunc (failing "boom"); WithRevertFunc (constant VNil)] s in
  mapM (tree_of 1 (heap s)) [a; b; c].

(** A task whose [Run] panics, after one that succeeded and has a [Revert]. *)
Definition crash : option (list TaskT) :=
  let '(a, s) :=
    New context.Background
      [WithFunc (constant (VInt 1)); WithRevertFunc (constant VNil)]
      init_state in
  let '(b, s) := New context.Background [WithFunc (fun _ _ => Panics)] s in
  mapM (tree_of 1 (heap s)) [a; b].

(** * Lemmas *)

Section Sizes.

Lemma tree_size_subtasks (x : TaskT) :
  tree_size x = S (forest_size (subtasks x)).
Proof. destruct x as [p [i ps c st r v]]. reflexivity. Qed.

Lemma forest_size_cons (t : TaskT) (ts : list TaskT) :
  forest_size (t :: ts) = tree_size t + forest_size ts.
Proof. reflexivity. Qed.

Lemma forest_size_app (a b : list TaskT) :
  forest_size (a ++ b) = forest_size a + forest_size b.
Proof. unfold forest_size. rewrite map_app, list_sum_app. reflexivity. Qed.

Lemma forest_size_children (ts : list TaskT) :
  forest_size (children ts) + length ts = forest_size ts.
Proof.
  induction ts as [|t ts IH]; [reflexivity|].
  unfold children in *. cbn [map concat length].
  rewrite forest_size_app, forest_size_cons, tree_size_subtasks. lia.
Qed.

Lemma forest_size_nil_inv (ts : list TaskT) : forest_size ts = 0 -> ts = [].
Proof.
  destruct ts as [|t ts]; [reflexivity|].
  rewrite forest_size_cons, tree_size_subtasks. lia.
Qed.

Lemma cells_size_some (ts : list TaskT) :
  cells_size (map Some ts) = forest_size ts.
Proof.
  unfold cells_size, forest_size. rewrite map_map. reflexivity.
Qed.

End Sizes.

Section Order.

Lemma children_cons (t : TaskT) (ts : list TaskT) :
  children (t :: ts) = subtasks t ++ children ts.
Proof. reflexivity. Qed.

Lemma children_app (a b : list TaskT) :
  children (a ++ b) = children a ++ children b.
Proof. unfold children. rewrite map_app, concat_app. reflexivity. Qed.

Lemma level_order_nil (d : nat) : level_order d [] = [].
Proof. induction d as [|d IH]; [reflexivity|]. cbn. exact IH. Qed.

(** Once every level is covered, more depth adds nothing. *)
Lemma level_order_depth (d1 d2 : nat) (ts : list TaskT) :
  forest_size ts <= d1 -> forest_size ts <= d2 ->
  level_order d1 ts = level_order d2 ts.
Proof.
  revert d2 ts. induction d1 as [|a IH]; intros d2 ts H1 H2.
  - rewrite (forest_size_nil_inv ts) by lia. now rewrite !level_order_nil.
  - destruct d2 as [|b].
    + rewrite (forest_size_nil_inv ts) by lia. now rewrite !level_order_nil.
    + cbn. f_equal. destruct ts as [|t ts]; [now rewrite !level_order_nil|].
      pose proof (forest_size_children (t :: ts)) as Hc. cbn [length] in Hc.
      apply IH; lia.
Qed.

(** The queue, part-way through a level: [cur] is what is left of the
    level, [nxt] the subtasks gathered so far. *)
Lemma visit_levels (n : nat) :
  forall cur nxt, forest_size (cur ++ nxt) <= n ->
    visit n (cur ++ nxt) = cur ++ level_order n (nxt ++ children cur).
Proof.
  induction n as [|m IH]; intros cur nxt Hn.
  - assert (Hnil : cur ++ nxt = []) by (apply forest_size_nil_inv; lia).
    apply app_eq_nil in Hnil as [-> ->]. reflexivity.
  - destruct cur as [|t cur'].
    + cbn [app children map concat]. rewrite app_nil_r.
      destruct nxt as [|t nxt']; [cbn; now rewrite level_order_nil|].
      cbn [app] in Hn. rewrite forest_size_cons, tree_size_subtasks in Hn.
      cbn [visit level_order]. rewrite <- app_comm_cons. f_equal.
      rewrite IH by (rewrite forest_size_app; lia).
      rewrite children_cons. reflexivity.
    + cbn [app] in Hn. rewrite forest_size_cons, tree_size_subtasks in Hn.
      rewrite forest_size_app in Hn.
      cbn [app visit]. f_equal.
      rewrite <- app_assoc.
      rewrite IH by (rewrite !forest_size_app; lia).
      f_equal. rewrite children_cons, <- app_assoc.
      pose proof (forest_size_children cur').
      apply level_order_depth; rewrite !forest_size_app; lia.
Qed.

(** The queue hands out the tasks of a forest level by level. *)
Lemma visit_bfs (n : nat) (ts : list TaskT) :
  forest_size ts <= n -> visit n ts = bfs ts.
Proof.
  intros Hn. pose proof (visit_levels n [] ts) as H.
  cbn [app children map concat] in H. rewrite app_nil_r in H.
  rewrite H by exact Hn. apply level_order_depth; [exact Hn|lia].
Qed.

Lemma visit_length (n : nat) :
  forall q, forest_size q <= n -> length (visit n q) = forest_size q.
Proof.
  induction n as [|m IH]; intros q Hn.
  - rewrite (forest_size_nil_inv q) by lia. reflexivity.
  - destruct q as [|t q]; [reflexivity|].
    rewrite forest_size_cons, tree_size_subtasks in *.
    cbn [visit length]. rewrite IH; rewrite forest_size_app; lia.
Qed.

Lemma bfs_length (ts : list TaskT) : length (bfs ts) = forest_size ts.
Proof.
  rewrite <- (visit_bfs (forest_size ts)) by lia. apply visit_length. lia.
Qed.

Lemma bfs_cons (t : TaskT) (q : list TaskT) :
  bfs (t :: q) = t :: bfs (q ++ subtasks t).
Proof.
  rewrite <- (visit_bfs (forest_size (t :: q))) by lia.
  rewrite forest_size_cons, tree_size_subtasks. cbn [Nat.add visit].
  f_equal. apply visit_bfs. rewrite forest_size_app. lia.
Qed.

Lemma bfs_nil : bfs [] = [].
Proof. reflexivity. Qed.

Lemma in_forest_cons (x t : TaskT) (q : list TaskT) :
  in_forest x (t :: q) <-> x = t \/ in_forest x (q ++ subtasks t).
Proof.
  split.
  - intros (r & Hr & Hx). apply elem_of_cons in Hr as [->|Hr].
    + inversion Hx as [|y c Hc Hxc]; subst; [now left|].
      right. exists c. split; [|exact Hxc]. apply elem_of_app. now right.
    + right. exists r. split; [|exact Hx]. apply elem_of_app. now left.
  - intros [->|(r & Hr & Hx)].
    + exists t. split; [apply elem_of_cons; now left|constructor].
    + apply elem_of_app in Hr as [Hr|Hr].
      * exists r. split; [apply elem_of_cons; now right|exact Hx].
      * exists t. split; [apply elem_of_cons; now left|].
        eapply in_tree_sub; eassumption.
Qed.

Lemma in_forest_nil (x : TaskT) : ~ in_forest x [].
Proof. intros (r & Hr & _). now apply elem_of_nil in Hr. Qed.

(** The level order lists exactly the tasks of the forest. *)
Lemma elem_of_bfs (x : TaskT) (ts : list TaskT) :
  x ∈ bfs ts <-> in_forest x ts.
Proof.
  remember (forest_size ts) as n eqn:Hn.
  assert (Hle : forest_size ts <= n) by lia. clear Hn.
  revert ts Hle. induction n as [|m IH]; intros ts Hle.
  - rewrite (forest_size_nil_inv ts) by lia. rewrite bfs_nil. split.
    + intros H. now apply elem_of_nil in H.
    + intros H. now apply in_forest_nil in H.
  - destruct ts as [|t q].
    + rewrite bfs_nil. split.
      * intros H. now apply elem_of_nil in H.
      * intros H. now apply in_forest_nil in H.
    + rewrite forest_size_cons, tree_size_subtasks in Hle.
      rewrite bfs_cons, in_forest_cons, elem_of_cons.
      rewrite IH by (rewrite forest_size_app; lia). reflexivity.
Qed.

Lemma in_forest_root (x : TaskT) (ts : list TaskT) : x ∈ ts -> in_forest x ts.
Proof. intros H. exists x. split; [exact H|constructor]. Qed.

End Order.

Section Slices.

Lemma lookup_window (arr : list cell) (off len i : nat) :
  take len (drop off arr) !! i =
  if decide (i < len) then arr !! (off + i) else None.
Proof.
  destruct (decide (i < len)) as [Hi|Hi].
  - rewrite lookup_take_lt by exact Hi. apply lookup_drop.
  - apply lookup_take_ge. lia.
Qed.

Lemma length_window (arr : list cell) (off len : nat) :
  off + len <= length arr -> length (take len (drop off arr)) = len.
Proof. intros H. rewrite length_take, length_drop. lia. Qed.

Lemma prepend_cons (successfulTasks : list cell) (task : TaskT) :
  prepend successfulTasks task = Some task :: successfulTasks.
Proof. destruct successfulTasks; reflexivity. Qed.

(** Taking the first task off the queue. *)
Lemma contents_pop (arr : list cell) (tasks : tslice) (c : cell) (q : list cell) :
  wf_slice arr tasks ->
  contents arr tasks = c :: q ->
  wf_slice (set_first arr tasks None).1 (rest (set_first arr tasks None).2) /\
  contents (set_first arr tasks None).1 (rest (set_first arr tasks None).2) = q.
Proof.
  destruct tasks as [off len|q0]; cbn; intros Hwf Hc.
  - assert (Hlen : length (take len (drop off arr)) = len)
      by (apply length_window; exact Hwf).
    rewrite Hc in Hlen. cbn in Hlen.
    rewrite length_insert. split; [lia|].
    rewrite drop_insert_lt by lia.
    destruct len as [|len']; [discriminate|].
    replace (S len' - 1) with len' by lia.
    rewrite (drop_S arr c off) in Hc.
    + cbn in Hc. now inversion Hc.
    + pose proof (lookup_window arr off (S len') 0) as Hl.
      rewrite Hc in Hl. cbn in Hl. rewrite Nat.add_0_r in Hl. now symmetry.
  - split; [exact I|]. subst q0. reflexivity.
Qed.

(** Appending the subtasks to the queue. *)
Lemma contents_append (arr : list cell) (tasks : tslice) (xs : list cell) :
  wf_slice arr tasks ->
  wf_slice (append arr tasks xs).1 (append arr tasks xs).2 /\
  contents (append arr tasks xs).1 (append arr tasks xs).2 =
    contents arr tasks ++ xs.
Proof.
  destruct tasks as [off len|q0]; cbn; intros Hwf; [|split; [exact I|reflexivity]].
  destruct (decide (off + len + length xs <= length arr)) as [Hfit|Hfit]; cbn;
    [|split; [exact I|reflexivity]].
  rewrite length_inserts. split; [lia|].
  apply list_eq. intros i.
  rewrite lookup_window.
  destruct (decide (i < len)) as [Hi|Hi].
  - rewrite lookup_app_l by (rewrite length_window by lia; exact Hi).
    rewrite lookup_window. rewrite decide_True by lia.
    rewrite decide_True by exact Hi.
    apply list_lookup_inserts_lt. lia.
  - rewrite lookup_app_r by (rewrite length_window by lia; lia).
    rewrite length_window by lia.
    destruct (decide (i < len + length xs)) as [Hi2|Hi2].
    + rewrite list_lookup_inserts by lia. f_equal. lia.
    + symmetry. apply lookup_ge_None. lia.
Qed.

End Slices.

Section Loops.

Lemma revert_calls_cons (values : list value) (t : TaskT) (l : list TaskT) :
  revert_calls values (t :: l) =
  match revert_call values t with
  | Some ev => ev :: revert_calls values l
  | None => revert_calls values l
  end.
Proof. reflexivity. Qed.

Lemma revert_calls_app (values : list value) (l1 l2 : list TaskT) :
  revert_calls values (l1 ++ l2) =
  revert_calls values l1 ++ revert_calls values l2.
Proof. apply omap_app. Qed.

(** [Revert] walks its tasks and all their descendants level by level and
    calls every [Revert] function that is set. *)
Lemma Revert_loop_bfs (fuel : nat) :
  forall (q : list TaskT) (values : list value),
    forest_size q <= fuel ->
    (forall t, in_forest t q -> revert_returns t) ->
    Revert_loop (S fuel) (map Some q) values =
      Reverted.mk (revert_calls values (bfs q)) (Done tt).
Proof.
  induction fuel as [|g IH]; intros q values Hsize Hret.
  - rewrite (forest_size_nil_inv q) by lia. reflexivity.
  - destruct q as [|t q']; [reflexivity|].
    rewrite forest_size_cons, tree_size_subtasks in Hsize.
    rewrite bfs_cons.
    assert (Hrec : Revert_loop (S g) (map Some q' ++ map Some (subtasks t)) values =
                   Reverted.mk (revert_calls values (bfs (q' ++ subtasks t))) (Done tt)).
    { rewrite <- map_app. apply IH; [rewrite forest_size_app; lia|].
      intros x Hx. apply Hret. apply in_forest_cons. now right. }
    assert (Ht : revert_returns t).
    { apply Hret. apply in_forest_cons. now left. }
    rewrite revert_calls_cons. unfold revert_call.
    change (Revert_loop (S (S g)) (map Some (t :: q')) values) with
      (match Task.Revert (node t) with
       | Some revert =>
           let out := revert (Task.Context (node t)) values in
           let ev := EvRevert (addr t) (Task.Context (node t)) values out in
           match out with
           | Panics => Reverted.mk [ev] Panic
           | Returns _ _ =>
               Reverted.log ev
                 (Revert_loop (S g) (map Some q' ++ map Some (subtasks t)) values)
           end
       | None => Revert_loop (S g) (map Some q' ++ map Some (subtasks t)) values
       end).
    rewrite Hrec. unfold revert_returns in Ht.
    destruct (Task.Revert (node t)) as [revert|]; [|reflexivity].
    cbn zeta. specialize (Ht revert eq_refl (Task.Context (node t)) values).
    destruct (revert (Task.Context (node t)) values) as [val err|];
      [reflexivity|contradiction].
Qed.

Lemma Revert_bfs (ts : list TaskT) (values : list value) :
  (forall t, in_forest t ts -> revert_returns t) ->
  Revert (map Some ts) values =
    Reverted.mk (revert_calls values (bfs ts)) (Done tt).
Proof.
  intros H. unfold Revert. rewrite cells_size_some.
  apply Revert_loop_bfs; [lia|exact H].
Qed.

(** One turn of the loop of [Run], on a queue whose first task is [t]. *)
Lemma Run_loop_step (fuel : nat) (arr : list cell) (tasks : tslice)
    (values result : list value) (successfulTasks : list cell)
    (t : TaskT) (q : list cell) :
  contents arr tasks = Some t :: q ->
  Run_loop (S fuel) arr tasks values result successfulTasks =
    let arr1 := (set_first arr tasks None).1 in
    let tasks2 := rest (set_first arr tasks None).2 in
    match Task.Run (node t) with
    | None => Ran.mk arr1 [] Panic
    | Some run =>
        let out := run (Task.Context (node t)) values in
        let ev := EvRun (addr t) (Task.Context (node t)) values out in
        match out with
        | Panics => Ran.mk arr1 [ev] Panic
        | Returns _ (Some err) =>
            let r := Revert successfulTasks values in
            Ran.mk arr1 (ev :: Reverted.calls r)
              match Reverted.ret r with
              | Done _ => Done (None, Some err)
              | Panic => Panic
              | OutOfFuel => OutOfFuel
              end
        | Returns val None =>
            Ran.log ev
              (Run_loop fuel
                 (append arr1 tasks2 (map Some (subtasks t))).1
                 (append arr1 tasks2 (map Some (subtasks t))).2
                 (values ++ [val]) (result ++ [val])
                 (Some t :: successfulTasks))
        end
    end.
Proof.
  intros Hc. cbn [Run_loop]. rewrite Hc.
  destruct (set_first arr tasks None) as [arr1 tasks1]. cbn [fst snd].
  destruct (Task.Run (node t)) as [run|]; [|reflexivity].
  cbn zeta.
  destruct (run (Task.Context (node t)) values) as [val [err|]|]; try reflexivity.
  rewrite prepend_cons.
  destruct (append arr1 (rest tasks1) (map Some (subtasks t))) as [arr2 tasks3].
  reflexivity.
Qed.

(** [Run] calls the tasks in level order, stopping at the first that does
    not succeed. *)
Lemma Run_loop_run_list (fuel : nat) :
  forall (arr : list cell) (tasks : tslice) (q : list TaskT)
         (values result : list value) (successfulTasks : list cell),
    wf_slice arr tasks ->
    contents arr tasks = map Some q ->
    forest_size q <= fuel ->
    (Ran.calls (Run_loop (S fuel) arr tasks values result successfulTasks),
     Ran.ret (Run_loop (S fuel) arr tasks values result successfulTasks)) =
    run_list (bfs q) values result successfulTasks.
Proof.
  induction fuel as [|g IH]; intros arr tasks q values result succ Hwf Hc Hsize.
  - assert (Hq : q = []) by (apply forest_size_nil_inv; lia). subst q.
    cbn [Run_loop]. rewrite Hc. reflexivity.
  - destruct q as [|t q'].
    + cbn [Run_loop]. rewrite Hc. reflexivity.
    + rewrite forest_size_cons, tree_size_subtasks in Hsize.
      cbn [map] in Hc.
      rewrite (Run_loop_step _ _ _ _ _ _ _ _ Hc), bfs_cons. cbn [run_list].
      destruct (contents_pop _ _ _ _ Hwf Hc) as [Hwf1 Hc1].
      destruct (Task.Run (node t)) as [run|]; [|reflexivity].
      cbn zeta.
      destruct (run (Task.Context (node t)) values) as [val [err|]|];
        try reflexivity.
      destruct (contents_append _ _ (map Some (subtasks t)) Hwf1) as [Hwf2 Hc2].
      rewrite Hc1, <- map_app in Hc2.
      rewrite <- (IH _ _ _ _ _ _ Hwf2 Hc2) by (rewrite forest_size_app; lia).
      reflexivity.
Qed.

Lemma Run_run_list (arr : list cell) (off len : nat) (ts : list TaskT)
    (values : list value) :
  off + len <= length arr ->
  take len (drop off arr) = map Some ts ->
  (Ran.calls (Run arr off len values), Ran.ret (Run arr off len values)) =
  run_list (bfs ts) values [] [].
Proof.
  intros Hwf Hc. unfold Run. rewrite Hc, cells_size_some.
  apply Run_loop_run_list; [exact Hwf|exact Hc|lia].
Qed.

End Loops.

Section Outcomes.

Lemma in_tree_trans (x y z : TaskT) : in_tree x y -> in_tree y z -> in_tree x z.
Proof.
  intros Hxy Hyz. induction Hyz as [|z c Hc Hyc IH]; [exact Hxy|].
  eapply in_tree_sub; [exact Hc|exact IH].
Qed.

Lemma run_value_success (t : TaskT) (run : TaskFunc) (values : list value)
    (val : value) (err : option error) :
  Task.Run (node t) = Some run ->
  run (Task.Context (node t)) values = Returns val err ->
  run_value t values = val.
Proof. intros Hrun Hout. unfold run_value. now rewrite Hrun, Hout. Qed.

(** When every call succeeds, the results are the values produced along the
    order. *)
Lemma run_list_succeeds (l : list TaskT) :
  forall (values result : list value) (successfulTasks : list cell),
    all_succeed l values = true ->
    (run_list l values result successfulTasks).2 =
      Done (Some (result ++ produced l values), None).
Proof.
  induction l as [|t l IH]; intros values result succ Hall.
  - cbn. now rewrite app_nil_r.
  - cbn [all_succeed] in Hall. cbn [run_list produced].
    destruct (Task.Run (node t)) as [run|] eqn:Hrun; [|discriminate Hall].
    cbn zeta.
    destruct (run (Task.Context (node t)) values) as [val [err|]|] eqn:Hout;
      try discriminate Hall.
    rewrite (run_value_success t run values val None Hrun Hout).
    specialize (IH (values ++ [val]) (result ++ [val]) (Some t :: succ) Hall).
    destruct (run_list l (values ++ [val]) (result ++ [val]) (Some t :: succ))
      as [evs e]. cbn [snd] in *.
    rewrite IH. now rewrite <- app_assoc.
Qed.

(** And only then does the loop return results. *)
Lemma run_list_returns_results (l : list TaskT) :
  forall (values result : list value) (successfulTasks : list cell)
         (res : list value) (err : option error),
    (run_list l values result successfulTasks).2 = Done (Some res, err) ->
    all_succeed l values = true.
Proof.
  induction l as [|t l IH]; intros values result succ res err; [reflexivity|].
  cbn [run_list all_succeed].
  destruct (Task.Run (node t)) as [run|]; [|discriminate].
  cbn zeta.
  destruct (run (Task.Context (node t)) values) as [val [e|]|]; [| |discriminate].
  - cbn [snd]. destruct (Reverted.ret (Revert succ values)); discriminate.
  - specialize (IH (values ++ [val]) (result ++ [val]) (Some t :: succ) res err).
    destruct (run_list l (values ++ [val]) (result ++ [val]) (Some t :: succ))
      as [evs e]. exact IH.
Qed.

(** [Run] returns results exactly when every call of the run succeeds. *)
Lemma Run_returns_results (arr : list cell) (off len : nat) (ts : list TaskT)
    (values : list value) :
  off + len <= length arr ->
  take len (drop off arr) = map Some ts ->
  (exists res, Ran.ret (Run arr off len values) = Done (Some res, None)) <->
  all_succeed (bfs ts) values = true.
Proof.
  intros Hwf Hc.
  pose proof (Run_run_list arr off len ts values Hwf Hc) as H.
  apply (f_equal snd) in H. cbn [snd] in H. rewrite H. split.
  - intros [res Hres]. eapply run_list_returns_results. exact Hres.
  - intros Hall. eexists. now apply run_list_succeeds.
Qed.

(** The trace of a failed run, call by call: the tasks before the first
    failure succeeded; [Revert] then walks them, most recent first, and
    their descendants, with the values accumulated so far. *)
Lemma run_list_fails (l : list TaskT) :
  forall (values result : list value) (s : list TaskT),
    one_fails l values = true ->
    (forall r, r ∈ s ++ l -> forall x, in_tree x r -> revert_returns x) ->
    exists pre t post val err,
      l = pre ++ t :: post /\
      all_succeed pre values = true /\
      run_list l values result (map Some s) =
        (run_calls pre values
           ++ EvRun (addr t) (Task.Context (node t)) (values ++ produced pre values)
                (Returns val (Some err))
           :: revert_calls (values ++ produced pre values) (bfs (rev pre ++ s)),
         Done (None, Some err)).
Proof.
  induction l as [|t l IH]; intros values result s Hfail Hrev;
    [discriminate Hfail|].
  cbn [one_fails] in Hfail. cbn [run_list].
  destruct (Task.Run (node t)) as [run|] eqn:Hrun; [|discriminate Hfail].
  cbn zeta.
  destruct (run (Task.Context (node t)) values) as [val [err|]|] eqn:Hout;
    [| |discriminate Hfail].
  - exists [], t, l, val, err. split; [reflexivity|]. split; [reflexivity|].
    cbn [run_calls produced rev app]. rewrite app_nil_r.
    rewrite Revert_bfs; [reflexivity|].
    intros x (r & Hr & Hx). apply (Hrev r); [|exact Hx].
    apply elem_of_app. now left.
  - destruct (IH (values ++ [val]) (result ++ [val]) (t :: s) Hfail)
      as (pre & u & post & v & err & Hl & Hpre & Hrun'); clear IH.
    + intros r Hr. apply Hrev.
      rewrite elem_of_app, !elem_of_cons in *. tauto.
    + exists (t :: pre), u, post, v, err.
      split; [now rewrite Hl|]. split.
      { cbn [all_succeed]. now rewrite Hrun, Hout. }
      cbn [map] in Hrun'. rewrite Hrun'.
      cbn [run_calls produced rev].
      rewrite (run_value_success t run values val None Hrun Hout).
      rewrite <- !app_assoc. reflexivity.
Qed.

(** The error [Run] returns is the error some [Run] function returned, and
    it comes with no results. *)
Lemma Run_loop_error (fuel : nat) :
  forall (arr : list cell) (tasks : tslice) (values result : list value)
         (successfulTasks : list cell) (res : option (list value)) (err : error),
    Ran.ret (Run_loop fuel arr tasks values result successfulTasks) =
      Done (res, Some err) ->
    res = None /\
    exists p ctx vs val,
      EvRun p ctx vs (Returns val (Some err)) ∈
        Ran.calls (Run_loop fuel arr tasks values result successfulTasks).
Proof.
  induction fuel as [|g IH]; intros arr tasks values result succ res err;
    [discriminate|].
  cbn [Run_loop].
  destruct (contents arr tasks) as [|c q]; [discriminate|].
  destruct (set_first arr tasks None) as [arr1 tasks1].
  destruct c as [t|]; [|discriminate].
  destruct (Task.Run (node t)) as [run|]; [|discriminate].
  cbn zeta.
  destruct (run (Task.Context (node t)) values) as [val [e|]|] eqn:Hout;
    [| |discriminate].
  - cbn [Ran.ret Ran.calls].
    destruct (Reverted.ret (Revert succ values)); try discriminate.
    intros H. injection H as <- <-. split; [reflexivity|].
    exists (addr t), (Task.Context (node t)), values, val.
    apply elem_of_cons. now left.
  - destruct (append arr1 (rest tasks1) (map Some (subtasks t))) as [arr2 tasks3].
    cbn [Ran.log Ran.ret Ran.calls]. intros H.
    destruct (IH _ _ _ _ _ _ _ H) as (Hres & p & ctx & vs & v & Hin).
    split; [exact Hres|]. exists p, ctx, vs, v. apply elem_of_cons. now right.
Qed.

End Outcomes.

Section Termination.

Lemma cells_size_app (a b : list cell) :
  cells_size (a ++ b) = cells_size a + cells_size b.
Proof. unfold cells_size. rewrite map_app, list_sum_app. reflexivity. Qed.

(** The bound [Revert] gives its loop is never reached. *)
Lemma Revert_loop_terminates (fuel : nat) :
  forall (q : list cell) (values : list value),
    cells_size q < fuel ->
    Reverted.ret (Revert_loop fuel q values) <> OutOfFuel.
Proof.
  induction fuel as [|g IH]; intros q values Hsize; [lia|].
  cbn [Revert_loop].
  destruct q as [|[t|] q]; [discriminate|idtac|discriminate].
  assert (Hrec : Reverted.ret
                   (Revert_loop g (q ++ map Some (subtasks t)) values) <> OutOfFuel).
  { apply IH. rewrite cells_size_app, cells_size_some.
    change (cells_size (Some t :: q)) with (tree_size t + cells_size q) in Hsize.
    rewrite tree_size_subtasks in Hsize. lia. }
  destruct (Task.Revert (node t)) as [revert|]; [|exact Hrec].
  cbn zeta.
  destruct (revert (Task.Context (node t)) values) as [val err|];
    [exact Hrec|discriminate].
Qed.

Lemma Revert_terminates (tasks : list cell) (values : list value) :
  Reverted.ret (Revert tasks values) <> OutOfFuel.
Proof. apply Revert_loop_terminates. lia. Qed.

(** Nor is the bound [Run] gives its loop. *)
Lemma Run_loop_terminates (fuel : nat) :
  forall (arr : list cell) (tasks : tslice) (values result : list value)
         (successfulTasks : list cell),
    wf_slice arr tasks ->
    cells_size (contents arr tasks) < fuel ->
    Ran.ret (Run_loop fuel arr tasks values result successfulTasks) <> OutOfFuel.
Proof.
  induction fuel as [|g IH]; intros arr tasks values result succ Hwf Hsize; [lia|].
  cbn [Run_loop].
  destruct (contents arr tasks) as [|c q] eqn:Hc; [discriminate|].
  destruct (contents_pop _ _ _ _ Hwf Hc) as [Hwf1 Hc1].
  destruct (set_first arr tasks None) as [arr1 tasks1]. cbn [fst snd] in *.
  destruct c as [t|]; [|discriminate].
  destruct (Task.Run (node t)) as [run|]; [|discriminate].
  cbn zeta.
  destruct (run (Task.Context (node t)) values) as [val [e|]|]; [| |discriminate].
  - cbn [Ran.ret]. pose proof (Revert_terminates succ values) as Hr.
    destruct (Reverted.ret (Revert succ values)); [discriminate|discriminate|].
    now destruct Hr.
  - destruct (contents_append _ _ (map Some (subtasks t)) Hwf1) as [Hwf2 Hc2].
    destruct (append arr1 (rest tasks1) (map Some (subtasks t))) as [arr2 tasks3].
    cbn [fst snd Ran.log Ran.ret] in *. apply IH; [exact Hwf2|].
    rewrite Hc2, Hc1, cells_size_app, cells_size_some.
    change (cells_size (Some t :: q)) with (tree_size t + cells_size q) in Hsize.
    rewrite tree_size_subtasks in Hsize. lia.
Qed.

(** [Run] returns or panics on every slice. *)
Lemma Run_terminates (arr : list cell) (off len : nat) (values : list value) :
  off + len <= length arr ->
  Ran.ret (Run arr off len values) <> OutOfFuel.
Proof.
  intros Hwf. unfold Run. apply Run_loop_terminates; [exact Hwf|].
  cbn [contents]. lia.
Qed.

End Termination.

(** * The claims *)

(** Naming the tree an example builds. *)
Ltac built_tree ex :=
  let v := eval vm_compute in ex in
  match v with
  | Some ?t => exists t; split; [vm_compute; reflexivity|]
  end.

(** The same for an example whose task functions read their values: the
    functions are left as they are written. *)
Ltac built_reading ex :=
  let v := eval cbv -[add_to last_int nth_int constant failing] in ex in
  match v with
  | Some ?t => exists t; split; [reflexivity|]
  end.

(** Going through the tasks of a concrete forest. *)
Ltac each_task H :=
  apply elem_of_bfs in H; vm_compute in H;
  repeat (apply elem_of_cons in H as [->|H]);
  [..|now apply elem_of_nil in H].

Lemma produced_length (l : list TaskT) :
  forall values, length (produced l values) = length l.
Proof.
  induction l as [|t l IH]; intros values; [reflexivity|].
  cbn [produced length]. now rewrite IH.
Qed.

(** C1, as stated, fails.  In the tree A(B(D), C) whose tasks return 1, 2, 3
    and 4, every [Run] succeeds, yet [Run] returns 1, 2, 3, 4: D's value
    comes after C's, not right after its parent B's as pre-order has it. *)
Lemma Run_not_preorder :
  exists t, fork = Some t /\
    (forall x, in_forest x [t] ->
       exists run, Task.Run (node x) = Some run /\
         forall ctx values, exists val, run ctx values = Returns val None) /\
    Ran.ret (Run_literal [t] []) =
      Done (Some [VInt 1; VInt 2; VInt 3; VInt 4], None) /\
    map (fun x => run_value x []) (preorder t) =
      [VInt 1; VInt 2; VInt 4; VInt 3] /\
    Ran.ret (Run_literal [t] []) <>
      Done (Some (map (fun x => run_value x []) (preorder t)), None).
Proof.
  built_tree fork. split; [|split; [|split]].
  - intros x Hx. each_task Hx;
      (eexists; split; [reflexivity|]; intros; eexists; reflexivity).
  - vm_compute. reflexivity.
  - vm_compute. reflexivity.
  - vm_compute. discriminate.
Qed.

(** C1, amended: when every task's [Run] succeeds on the values it is given
    in the run, [Run] returns exactly one produced value per task of the
    forest, in level order: the values of the tasks handed in, then those of
    their subtasks in attachment order, then those of the subtasks'
    subtasks, and so on; each task is called with the initial values
    followed by the values produced before it. *)
Theorem Run_level_order (arr : list cell) (off len : nat) (ts : list TaskT)
    (values : list value) :
  off + len <= length arr ->
  take len (drop off arr) = map Some ts ->
  all_succeed (bfs ts) values = true ->
  Ran.ret (Run arr off len values) =
    Done (Some (produced (bfs ts) values), None) /\
  length (produced (bfs ts) values) = forest_size ts.
Proof.
  intros Hwf Hc Hall. split.
  - pose proof (Run_run_list arr off len ts values Hwf Hc) as H.
    apply (f_equal snd) in H. cbn [snd] in H. rewrite H.
    now rewrite run_list_succeeds.
  - rewrite produced_length. apply bfs_length.
Qed.

Lemma Run_level_order_witness :
  exists t, chain = Some t /\
    Ran.ret (Run [Some t] 0 1 []) = Done (Some (produced (bfs [t]) []), None) /\
    length (produced (bfs [t]) []) = forest_size [t].
Proof.
  built_reading chain.
  apply Run_level_order.
  - cbn. lia.
  - reflexivity.
  - vm_compute. reflexivity.
Defined.

(** C7: scenario 1.  A returns 1, its subtask B the last value plus 2, B's
    subtask C the last value plus 3: [Run([A])] returns 1, 3, 6, which sum
    to 10, and a nil error.  The tasks of [TestSimpleTaskChain], which read
    [values[0]] and [values[1]], give the same. *)
Theorem Run_chain :
  (t ← chain; Some (Ran.ret (Run_literal [t] []))) =
    Some (Done (Some [VInt 1; VInt 3; VInt 6], None)) /\
  (t ← test_chain; Some (Ran.ret (Run_literal [t] []))) =
    Some (Done (Some [VInt 1; VInt 3; VInt 6], None)) /\
  int_sum [VInt 1; VInt 3; VInt 6] = Some 10%Z.
Proof.
  split; [|split].
  - vm_compute. reflexivity.
  - vm_compute. reflexivity.
  - vm_compute. reflexivity.
Qed.

(** C9: [Run] on an empty slice, whatever the initial values, returns an
    empty result and a nil error, calls no task function and leaves the
    caller's array as it was. *)
Theorem Run_empty (arr : list cell) (off : nat) (values : list value) :
  Run arr off 0 values = Ran.mk arr [] (Done (Some [], None)).
Proof. reflexivity. Qed.

Section Unwinding.

Lemma elem_of_rev (x : TaskT) (l : list TaskT) : x ∈ rev l <-> x ∈ l.
Proof. rewrite !list_elem_of_In. symmetry. apply in_rev. Qed.

Lemma elem_of_revert_calls (values : list value) (l : list TaskT) (ev : event) :
  ev ∈ revert_calls values l <->
  exists t, t ∈ l /\ revert_call values t = Some ev.
Proof. apply list_elem_of_omap. Qed.

Lemma run_calls_no_revert (l : list TaskT) :
  forall (values : list value) (ev : event),
    ev ∈ run_calls l values -> revert_values ev = None.
Proof.
  induction l as [|t l IH]; intros values ev Hin.
  - now apply elem_of_nil in Hin.
  - cbn [run_calls] in Hin. apply elem_of_cons in Hin as [->|Hin]; [reflexivity|].
    eapply IH. exact Hin.
Qed.

(** The trace of a failed [Run]: successful calls, the failed call, then
    the [Revert] calls over the succeeded tasks and their descendants. *)
Lemma Run_fails_trace (arr : list cell) (off len : nat) (ts : list TaskT)
    (values : list value) :
  off + len <= length arr ->
  take len (drop off arr) = map Some ts ->
  (forall t, in_forest t ts -> revert_returns t) ->
  one_fails (bfs ts) values = true ->
  exists pre t post val err,
    bfs ts = pre ++ t :: post /\
    all_succeed pre values = true /\
    Ran.calls (Run arr off len values) =
      run_calls pre values
        ++ EvRun (addr t) (Task.Context (node t)) (values ++ produced pre values)
             (Returns val (Some err))
        :: revert_calls (values ++ produced pre values) (bfs (rev pre)) /\
    Ran.ret (Run arr off len values) = Done (None, Some err).
Proof.
  intros Hwf Hc Hall Hfail.
  pose proof (Run_run_list arr off len ts values Hwf Hc) as H.
  destruct (run_list_fails (bfs ts) values [] [] Hfail)
    as (pre & t & post & val & err & Hl & Hpre & Hrun).
  - intros r Hr x Hx. cbn [app] in Hr. apply elem_of_bfs in Hr.
    destruct Hr as (r0 & Hr0 & Hr). apply Hall. exists r0.
    split; [exact Hr0|]. eapply in_tree_trans; eassumption.
  - exists pre, t, post, val, err.
    pose proof (eq_trans H Hrun) as H'. rewrite app_nil_r in H'.
    injection H' as Hcalls Hret. auto.
Qed.

(** Every [Revert] call that [Run] makes is given the initial values followed
    by at least one value produced during the run. *)
Lemma Run_revert_values_grown (arr : list cell) (off len : nat) (ts : list TaskT)
    (values : list value) :
  off + len <= length arr ->
  take len (drop off arr) = map Some ts ->
  (forall t, in_forest t ts -> revert_returns t) ->
  one_fails (bfs ts) values = true ->
  forall ev vs, ev ∈ Ran.calls (Run arr off len values) ->
    revert_values ev = Some vs ->
    exists extra, vs = values ++ extra /\ extra <> [].
Proof.
  intros Hwf Hc Hall Hfail ev vs Hin Hvs.
  destruct (Run_fails_trace arr off len ts values Hwf Hc Hall Hfail)
    as (pre & u & post & val & err & _ & _ & Hcalls & _).
  rewrite Hcalls in Hin. apply elem_of_app in Hin as [Hin|Hin].
  { apply run_calls_no_revert in Hin. congruence. }
  apply elem_of_cons in Hin as [->|Hin]; [discriminate Hvs|].
  apply elem_of_revert_calls in Hin as (t & Ht & Hcall).
  unfold revert_call in Hcall.
  destruct (Task.Revert (node t)); [|discriminate Hcall].
  injection Hcall as <-. injection Hvs as <-.
  exists (produced pre values). split; [reflexivity|].
  intros Hnil. apply (f_equal length) in Hnil.
  rewrite produced_length in Hnil. destruct pre; [|discriminate Hnil].
  apply elem_of_bfs in Ht. now apply in_forest_nil in Ht.
Qed.

End Unwinding.

(** C2 is what the comment on [Run] promises (to revert the changes made by
    the tasks that have already succeeded, by calling their Revert methods
    in reverse order), and [Run] keeps those tasks in [successfulTasks];
    the code does otherwise.  A has subtasks B and C; A and B succeed, C
    fails; all three carry a [Revert].  [Run] hands A and B to [Revert],
    which also walks the subtasks of each task it takes: the [Revert] of B,
    which succeeded, is invoked twice, once as a succeeded task and once as
    a subtask of A, and the [Revert] of C, which never succeeded, is
    invoked. *)
Lemma Run_reverts_twice :
  exists t, saga_clean = Some t /\
    Ran.ret (Run_literal [t] []) = Done (None, Some "boom") /\
    succeeded (Ran.calls (Run_literal [t] [])) 1 /\
    revert_count (Ran.calls (Run_literal [t] [])) 1 = 2 /\
    ~ succeeded (Ran.calls (Run_literal [t] [])) 2 /\
    reverted (Ran.calls (Run_literal [t] [])) 2.
Proof.
  built_tree saga_clean. split; [|split; [|split; [|split]]].
  - vm_compute. reflexivity.
  - do 3 eexists. apply list_elem_of_lookup. exists 1. vm_compute. reflexivity.
  - vm_compute. reflexivity.
  - intros (ctx & vs & v & H). vm_compute in H.
    repeat (apply elem_of_cons in H as [H|H]; [discriminate H|]).
    now apply elem_of_nil in H.
  - do 3 eexists. apply list_elem_of_lookup. exists 6. vm_compute. reflexivity.
Qed.

(** C3 is what the comment on [Run] promises (the original input values are
    passed to the Revert methods), and the code does otherwise.  [Run] is
    called with the initial value 7; A returns 1, B returns 2, C fails.
    Every [Revert] then receives 7, 1, 2: the variable [values] that [Run]
    hands to [Revert] has had each produced value appended to it. *)
Theorem Run_reverts_with_accumulated_values :
  exists t, saga = Some t /\
    Ran.ret (Run_literal [t] [VInt 7]) = Done (None, Some "boom") /\
    omap revert_values (Ran.calls (Run_literal [t] [VInt 7])) =
      replicate 4 [VInt 7; VInt 1; VInt 2] /\
    [VInt 7; VInt 1; VInt 2] <> [VInt 7].
Proof.
  built_tree saga. split; [|split].
  - vm_compute. reflexivity.
  - vm_compute. reflexivity.
  - discriminate.
Qed.

(** C4, as stated, fails.  The [Revert] of A returns the error "undo failed",
    once when [Run] unwinds and once when [Revert] is called directly.
    [Run] returns the error of the failed task alone, exactly as it does on
    the same tree with no failing [Revert]; the direct call of [Revert]
    returns nothing. *)
Lemma Revert_failure_not_returned :
  exists t, saga = Some t /\ exists t', saga_clean = Some t' /\
    (exists ctx values,
       EvRevert 0 ctx values (Returns VNil (Some "undo failed")) ∈
         Ran.calls (Run_literal [t] [])) /\
    Ran.ret (Run_literal [t] []) = Done (None, Some "boom") /\
    Ran.ret (Run_literal [t'] []) = Done (None, Some "boom") /\
    (exists ctx values,
       EvRevert 0 ctx values (Returns VNil (Some "undo failed")) ∈
         Reverted.calls (Revert [Some t] [])) /\
    Reverted.ret (Revert [Some t] []) = Done tt.
Proof.
  built_tree saga. built_tree saga_clean.
  split; [|split; [|split; [|split]]].
  - do 2 eexists. apply list_elem_of_lookup. exists 4. vm_compute. reflexivity.
  - vm_compute. reflexivity.
  - vm_compute. reflexivity.
  - do 2 eexists. apply list_elem_of_lookup. exists 0. vm_compute. reflexivity.
  - vm_compute. reflexivity.
Qed.

(** C4, amended: the failures of [Revert] functions are dropped.  A pass of
    [Revert] runs to its end whatever errors the [Revert] functions return,
    and returns nothing; an error that [Run] returns is the error of the
    [Run] function that failed, and comes with no results. *)
Theorem Revert_errors_dropped :
  (forall (ts : list TaskT) (values : list value),
     (forall t, in_forest t ts -> revert_returns t) ->
     Reverted.ret (Revert (map Some ts) values) = Done tt /\
     length (Reverted.calls (Revert (map Some ts) values)) =
       length (filter (fun t => Task.Revert (node t) <> None) (bfs ts))) /\
  (forall (arr : list cell) (off len : nat) (values : list value)
          (res : option (list value)) (err : error),
     Ran.ret (Run arr off len values) = Done (res, Some err) ->
     res = None /\
     exists p ctx vs val,
       EvRun p ctx vs (Returns val (Some err)) ∈ Ran.calls (Run arr off len values)).
Proof.
  split.
  - intros ts values H. rewrite Revert_bfs by exact H. cbn. split; [reflexivity|].
    induction (bfs ts) as [|t l IH]; [reflexivity|].
    rewrite revert_calls_cons, filter_cons. unfold revert_call.
    destruct (Task.Revert (node t)) as [f|].
    + rewrite decide_True by discriminate. cbn. now rewrite IH.
    + rewrite decide_False by (intros Hn; now apply Hn). exact IH.
  - intros arr off len values res err H. unfold Run in *.
    eapply Run_loop_error. exact H.
Qed.

Lemma Revert_errors_dropped_witness :
  exists t, saga = Some t /\
    (Reverted.ret (Revert (map Some [t]) []) = Done tt /\
     length (Reverted.calls (Revert (map Some [t]) [])) =
       length (filter (fun x => Task.Revert (node x) <> None) (bfs [t]))) /\
    (None = None :> option (list value) /\
     exists p ctx vs val,
       EvRun p ctx vs (Returns val (Some "boom")) ∈ Ran.calls (Run [Some t] 0 1 [])).
Proof.
  built_tree saga. split.
  - apply (proj1 Revert_errors_dropped).
    intros x Hx. each_task Hx;
      (intros revert Hr ctx vs; injection Hr as <-; discriminate).
  - apply (proj2 Revert_errors_dropped). vm_compute. reflexivity.
Defined.

(** C8, as stated, fails.  When [Run] unwinds the tree A(B, C) in which C
    failed, it hands [Revert] the tasks that succeeded, B and A.  [Revert]
    goes on from A into both of its subtasks: it invokes the [Revert] of C,
    which never reached Succeeded. *)
Lemma Revert_enters_failed_child :
  exists a, saga_clean = Some a /\
    exists b c, subtasks a = [b; c] /\
      Ran.calls (Run_literal [a] []) =
        [EvRun (addr a) (Task.Context (node a)) [] (Returns (VInt 1) None);
         EvRun (addr b) (Task.Context (node b)) [VInt 1] (Returns (VInt 2) None);
         EvRun (addr c) (Task.Context (node c)) [VInt 1; VInt 2]
           (Returns VNil (Some "boom"))]
        ++ Reverted.calls (Revert [Some b; Some a] [VInt 1; VInt 2]) /\
      ~ succeeded (Ran.calls (Run_literal [a] [])) (addr c) /\
      reverted (Reverted.calls (Revert [Some b; Some a] [VInt 1; VInt 2])) (addr c).
Proof.
  built_tree saga_clean. do 2 eexists.
  split; [vm_compute; reflexivity|]. split; [|split].
  - vm_compute. reflexivity.
  - intros (ctx & vs & v & H). vm_compute in H.
    repeat (apply elem_of_cons in H as [H|H]; [discriminate H|]).
    now apply elem_of_nil in H.
  - do 3 eexists. apply list_elem_of_lookup. exists 3. vm_compute. reflexivity.
Qed.

(** C8, amended: [Revert] visits each task handed to it and, whether or not
    that task carries a [Revert] function and whether or not invoking it
    fails, goes on into all of that task's subtasks, succeeded or not,
    level by level; it invokes every [Revert] function that is set with the
    task's own context and the values given, and a task without one never
    stops the pass. *)
Theorem Revert_visits_all (ts : list TaskT) (values : list value) :
  (forall t, in_forest t ts -> revert_returns t) ->
  Revert (map Some ts) values =
    Reverted.mk (revert_calls values (bfs ts)) (Done tt).
Proof. apply Revert_bfs. Qed.

Lemma Revert_visits_all_witness :
  exists t, saga = Some t /\
    Revert (map Some [t]) [VInt 7] =
      Reverted.mk (revert_calls [VInt 7] (bfs [t])) (Done tt).
Proof.
  built_tree saga. apply Revert_visits_all.
  intros x Hx. each_task Hx;
    (intros revert Hr ctx vs; injection Hr as <-; discriminate).
Defined.

Section CallerArray.

Lemma Run_loop_mem_moved (fuel : nat) :
  forall (arr q : list cell) (values result : list value)
         (successfulTasks : list cell),
    Ran.mem (Run_loop fuel arr (Moved q) values result successfulTasks) = arr.
Proof.
  induction fuel as [|g IH]; intros arr q values result succ; [reflexivity|].
  cbn [Run_loop contents set_first rest].
  destruct q as [|c q]; [reflexivity|].
  destruct c as [t|]; [|reflexivity].
  destruct (Task.Run (node t)) as [run|]; [|reflexivity].
  cbn zeta.
  destruct (run (Task.Context (node t)) values) as [val [e|]|]; try reflexivity.
  cbn [append Ran.log Ran.mem]. apply IH.
Qed.

(** While the loop runs on the caller's array it sets to nil the elements
    it takes, [j] of them from position [o] on, and writes nothing else
    below the end of the queue. *)
Lemma Run_loop_mem (fuel : nat) :
  forall (arr : list cell) (o l : nat) (values result : list value)
         (successfulTasks : list cell),
    o + l <= length arr ->
    exists j,
      (0 < fuel -> 0 < l -> 0 < j) /\
      forall i, i < o + l ->
        Ran.mem (Run_loop fuel arr (InCaller o l) values result successfulTasks) !! i =
        if decide (o <= i < o + j) then Some None else arr !! i.
Proof.
  induction fuel as [|g IH]; intros arr o l values result succ Hwf.
  - exists 0. split; [lia|]. intros i Hi. cbn.
    rewrite decide_False by lia. reflexivity.
  - assert (Hone : forall i, i < o + l -> 0 < l ->
              (<[o := None]> arr : list cell) !! i =
              if decide (o <= i < o + 1) then Some None else arr !! i).
    { intros i Hi Hl. destruct (decide (o <= i < o + 1)) as [Ho|Ho].
      - assert (i = o) as -> by lia. apply list_lookup_insert_eq. lia.
      - apply list_lookup_insert_ne. lia. }
    cbn [Run_loop contents set_first rest].
    destruct (take l (drop o arr)) as [|c q] eqn:Hc.
    + exists 0. split.
      * intros _ Hl. exfalso.
        apply (f_equal length) in Hc. rewrite length_window in Hc by lia.
        cbn in Hc. lia.
      * intros i Hi. cbn. rewrite decide_False by lia. reflexivity.
    + assert (Hl : 0 < l).
      { destruct l; [discriminate Hc|lia]. }
      destruct c as [t|]; [|exists 1; split; [lia|]; intros i Hi; now apply Hone].
      destruct (Task.Run (node t)) as [run|];
        [|exists 1; split; [lia|]; intros i Hi; now apply Hone].
      cbn zeta.
      destruct (run (Task.Context (node t)) values) as [val [e|]|];
        try (exists 1; split; [lia|]; intros i Hi; now apply Hone).
      cbn [append]. rewrite length_insert.
      destruct (decide (S o + (l - 1) + length (map Some (subtasks t)) <= length arr))
        as [Hfit|Hfit].
      * cbn [Ran.log Ran.mem].
        destruct (IH (list_inserts (S o + (l - 1)) (map Some (subtasks t))
                        (<[o := None]> arr))
                     (S o) (l - 1 + length (map Some (subtasks t)))
                     (values ++ [val]) (result ++ [val]) (prepend succ t))
          as (j & _ & Hj).
        { rewrite length_inserts, length_insert. lia. }
        exists (S j). split; [lia|]. intros i Hi.
        rewrite Hj by lia.
        destruct (decide (S o <= i < S o + j)) as [Hin|Hout].
        -- rewrite decide_True by lia. reflexivity.
        -- rewrite list_lookup_inserts_lt by lia.
           rewrite Hone by lia.
           destruct (decide (o <= i < o + 1)) as [Ho|Ho].
           ++ rewrite decide_True by lia. reflexivity.
           ++ rewrite decide_False by lia. reflexivity.
      * cbn [Ran.log Ran.mem]. rewrite Run_loop_mem_moved.
        exists 1. split; [lia|]. intros i Hi. now apply Hone.
Qed.

(** Two arrays that agree on a window have the same window. *)
Lemma window_ext (a b : list cell) (off len : nat) :
  (forall i, off <= i < off + len -> a !! i = b !! i) ->
  take len (drop off a) = take len (drop off b).
Proof.
  intros H. apply list_eq. intros i. rewrite !lookup_window.
  destruct (decide (i < len)); [apply H; lia|reflexivity].
Qed.

Lemma cleared_le (q : list cell) :
  forall (spare : nat) (values : list value), cleared q spare values <= length q.
Proof.
  induction q as [|c q IH]; intros spare values; [reflexivity|].
  cbn [cleared length]. apply le_n_S.
  destruct c as [t|]; [|lia].
  destruct (Task.Run (node t)) as [run|]; [|lia].
  destruct (run (Task.Context (node t)) values) as [val [e|]|]; try lia.
  destruct (decide (length (subtasks t) <= spare)); [apply IH|lia].
Qed.

(** Tasks without subtasks that all succeed are all taken from the caller's
    array, whatever its capacity. *)
Lemma cleared_leaves (ts : list TaskT) :
  forall (spare : nat) (values : list value),
    leaves ts -> all_succeed ts values = true ->
    cleared (map Some ts) spare values = length ts.
Proof.
  induction ts as [|t ts IH]; intros spare values Hl Hall; [reflexivity|].
  apply Forall_cons in Hl as [Ht Hl].
  cbn [all_succeed] in Hall. cbn [map cleared length]. f_equal.
  destruct (Task.Run (node t)) as [run|]; [|discriminate Hall].
  destruct (run (Task.Context (node t)) values) as [val [e|]|];
    try discriminate Hall.
  rewrite Ht. cbn [length]. rewrite decide_True by lia.
  now apply IH.
Qed.

(** What the loop leaves in the caller's array below [w], a position within
    the queue: nil in the elements it took while the queue was in that
    array, [cleared] counting them, and everything else as it was. *)
Lemma Run_loop_cleared (fuel : nat) :
  forall (arr : list cell) (o l w : nat) (values result : list value)
         (successfulTasks : list cell),
    o + l <= length arr ->
    o <= w <= o + l ->
    cells_size (take l (drop o arr)) < fuel ->
    forall i, i < w ->
      Ran.mem (Run_loop fuel arr (InCaller o l) values result successfulTasks) !! i =
      if decide (o <= i < o + cleared (take (w - o) (drop o arr))
                                 (length arr - (o + l)) values)
      then Some None else arr !! i.
Proof.
  induction fuel as [|g IH]; intros arr o l w values result succ Hwf Hw Hsize i Hi;
    [lia|].
  destruct (decide (w = o)) as [->|Hne].
  { destruct (Run_loop_mem (S g) arr o l values result succ Hwf) as (j & _ & Hj).
    rewrite Hj by lia. rewrite Nat.sub_diag. cbn [take cleared].
    rewrite !decide_False by lia. reflexivity. }
  assert (Hone : forall k, k < o + l ->
            (<[o := None]> arr : list cell) !! k =
            if decide (o <= k < o + 1) then Some None else arr !! k).
  { intros k Hk. destruct (decide (o <= k < o + 1)) as [Ho|Ho].
    - assert (k = o) as -> by lia. apply list_lookup_insert_eq. lia.
    - apply list_lookup_insert_ne. lia. }
  pose proof (contents_pop arr (InCaller o l)) as Hpop.
  pose proof (contents_append (<[o := None]> arr) (InCaller (S o) (l - 1))) as Happ.
  cbn [Run_loop contents set_first rest fst snd wf_slice] in *.
  destruct (take l (drop o arr)) as [|c q] eqn:Hc.
  { apply (f_equal length) in Hc. rewrite length_window in Hc by lia.
    cbn in Hc. lia. }
  destruct (Hpop c q Hwf eq_refl) as [Hwf1 Hc1]. clear Hpop.
  assert (Ho : arr !! o = Some c).
  { pose proof (lookup_window arr o l 0) as Hl0. rewrite Hc in Hl0.
    rewrite decide_True in Hl0 by lia. rewrite Nat.add_0_r in Hl0. now symmetry. }
  rewrite (drop_S arr c o Ho).
  replace (w - o) with (S (w - S o)) by lia. cbn [take cleared].
  destruct c as [t|]; [|apply Hone; lia].
  destruct (Task.Run (node t)) as [run|]; [|apply Hone; lia].
  cbn zeta.
  destruct (run (Task.Context (node t)) values) as [val [e|]|];
    try (apply Hone; lia).
  specialize (Happ (map Some (subtasks t)) Hwf1).
  cbn [append] in *. rewrite length_insert in *. rewrite length_map in *.
  destruct (decide (S o + (l - 1) + length (subtasks t) <= length arr))
    as [Hfit|Hfit].
  - cbn [fst snd Ran.log Ran.mem contents wf_slice] in *.
    destruct Happ as [Hwf2 Hc2].
    rewrite (decide_True (P := length (subtasks t) <= length arr - (o + l)))
      by lia.
    rewrite (IH _ (S o) _ w) by
      (first [exact Hwf2 | lia
             | rewrite Hc2, Hc1, cells_size_app, cells_size_some;
               change (cells_size (Some t :: q)) with (tree_size t + cells_size q)
                 in Hsize;
               rewrite tree_size_subtasks in Hsize; lia]).
    rewrite length_inserts, length_insert.
    assert (Hsame : forall k, k < w -> k <> o ->
              list_inserts (S o + (l - 1)) (map Some (subtasks t))
                (<[o := None]> arr) !! k = arr !! k).
    { intros k Hk Hko. rewrite list_lookup_inserts_lt by lia.
      apply list_lookup_insert_ne. lia. }
    rewrite (window_ext _ arr (S o) (w - S o)) by (intros k Hk; apply Hsame; lia).
    replace (length arr - (S o + (l - 1 + length (subtasks t))))
      with (length arr - (o + l) - length (subtasks t)) by lia.
    destruct (decide (i = o)) as [->|Hio].
    + rewrite decide_False by lia. rewrite decide_True by lia.
      rewrite list_lookup_inserts_lt by lia. apply list_lookup_insert_eq. lia.
    + rewrite Hsame by lia.
      destruct (decide (S o <= i <
                  S o + cleared (take (w - S o) (drop (S o) arr))
                          (length arr - (o + l) - length (subtasks t))
                          (values ++ [val]))) as [Hin|Hout].
      * rewrite decide_True by lia. reflexivity.
      * rewrite decide_False by lia. reflexivity.
  - cbn [Ran.log Ran.mem]. rewrite Run_loop_mem_moved.
    rewrite (decide_False (P := length (subtasks t) <= length arr - (o + l)))
      by lia.
    apply Hone. lia.
Qed.

End CallerArray.

(** C10, as stated, fails.  [Run] is called on the slice literal holding A
    and B, where A has the subtask C.  Appending C to the one-element
    remainder of the slice exceeds its capacity, so the queue moves to a new
    array: [Run] returns with B still in the caller's slice. *)
Lemma Run_leaves_second_element :
  exists ab, pair = Some ab /\
    Ran.ret (Run_literal [ab.1; ab.2] []) =
      Done (Some [VInt 1; VInt 2; VInt 3], None) /\
    Ran.mem (Run_literal [ab.1; ab.2] []) = [None; Some ab.2].
Proof.
  built_tree pair. split.
  - vm_compute. reflexivity.
  - vm_compute. reflexivity.
Qed.

(** C10, amended: [Run] overwrites with nil a prefix of the caller's slice,
    one element for each task it takes while the queue is still in the
    caller's array, and leaves the remaining elements as they were.  The
    first element of a non-empty slice is always overwritten; the elements
    after the first failure, or after the first [append] that outgrows the
    capacity of the slice, are not: [cleared] counts one element for the
    first task and one more after each task that returned without error and
    whose subtasks fit the capacity left. *)
Theorem Run_clears_prefix (arr : list cell) (off len : nat) (values : list value) :
  off + len <= length arr ->
  (forall i, i < len ->
     Ran.mem (Run arr off len values) !! (off + i) =
     if decide (i < cleared (take len (drop off arr))
                      (length arr - (off + len)) values)
     then Some None else arr !! (off + i)) /\
  cleared (take len (drop off arr)) (length arr - (off + len)) values <= len /\
  (0 < len ->
   0 < cleared (take len (drop off arr)) (length arr - (off + len)) values).
Proof.
  intros Hwf. split; [|split].
  - intros i Hi. unfold Run.
    rewrite (Run_loop_cleared _ arr off len (off + len)) by lia.
    replace (off + len - off) with len by lia.
    destruct (decide (i < cleared (take len (drop off arr))
                           (length arr - (off + len)) values)) as [Hk|Hk].
    + rewrite decide_True by lia. reflexivity.
    + rewrite decide_False by lia. reflexivity.
  - pose proof (cleared_le (take len (drop off arr))
                  (length arr - (off + len)) values) as H.
    rewrite length_window in H by exact Hwf. exact H.
  - intros Hlen.
    destruct (take len (drop off arr)) as [|c q] eqn:Hc; [|cbn [cleared]; lia].
    apply (f_equal length) in Hc. rewrite length_window in Hc by exact Hwf.
    cbn in Hc. lia.
Qed.

Lemma Run_clears_prefix_witness :
  exists ab, pair = Some ab /\
    (forall i, i < 2 ->
       Ran.mem (Run [Some ab.1; Some ab.2] 0 2 []) !! (0 + i) =
       if decide (i < cleared (take 2 (drop 0 [Some ab.1; Some ab.2]))
                        (length [Some ab.1; Some ab.2] - (0 + 2)) [])
       then Some None else [Some ab.1; Some ab.2] !! (0 + i)) /\
    cleared (take 2 (drop 0 [Some ab.1; Some ab.2]))
      (length [Some ab.1; Some ab.2] - (0 + 2)) [] <= 2 /\
    (0 < 2 ->
     0 < cleared (take 2 (drop 0 [Some ab.1; Some ab.2]))
           (length [Some ab.1; Some ab.2] - (0 + 2)) []).
Proof.
  built_tree pair.
  apply (Run_clears_prefix _ 0 2 []). cbn. lia.
Defined.

Section Identifiers.

Lemma task_id_inj (n m : Z) : task_id n = task_id m -> n = m.
Proof.
  unfold task_id. intros H. apply String.app_inj in H.
  now apply (inj pretty) in H.
Qed.

Lemma wrap64_small (z : Z) :
  (- 2 ^ 63 <= z < 2 ^ 63)%Z -> wrap64 z = z.
Proof.
  unfold wrap64. change (2 ^ 64)%Z with (2 * 2 ^ 63)%Z.
  assert (Hpos : (0 < 2 ^ 63)%Z) by reflexivity.
  revert Hpos. generalize (2 ^ 63)%Z. intros a Ha H.
  rewrite Z.mod_small; lia.
Qed.

(** Without interference [New] names the task after the counter and moves
    the counter on by one. *)
Lemma New_sequential (ctx : context.Context) (s : state) :
  (- 2 ^ 63 <= counter s < 2 ^ 63 - 1)%Z ->
  Task.ID <$> heap (New ctx [] s).2 !! (New ctx [] s).1 =
    Some (task_id (counter s)) /\
  counter (New ctx [] s).2 = (counter s + 1)%Z.
Proof.
  intros H. cbn [New New_from fst snd heap counter fold_left]. split.
  - rewrite lookup_app_r by apply Nat.le_refl.
    rewrite Nat.sub_diag. reflexivity.
  - apply wrap64_small.
    assert (Hpos : (0 < 2 ^ 63)%Z) by reflexivity.
    revert H Hpos. generalize (2 ^ 63)%Z. intros a H Ha. lia.
Qed.

End Identifiers.

(** C5 is what the comments on [counter] and [New] promise (a unique ID for
    each new task), and [counter] is an atomic integer, but [New] reads it
    with [Load] and increments it with a separate [Add].  Two goroutines
    call [New] in a fresh process; both load the counter before either adds
    to it.  The counter is incremented once per construction and ends at 2,
    yet both tasks are named task_0.  When one call completes before the
    other starts, the names are task_0 and task_1. *)
Theorem New_concurrent_same_id :
  returned_id (run_schedule [0; 1; 0; 1] two_callers) 0 = Some "task_0" /\
  returned_id (run_schedule [0; 1; 0; 1] two_callers) 1 = Some "task_0" /\
  counter (shared (run_schedule [0; 1; 0; 1] two_callers)) = 2%Z /\
  returned_id (run_schedule [0; 0; 1; 1] two_callers) 0 = Some "task_0" /\
  returned_id (run_schedule [0; 0; 1; 1] two_callers) 1 = Some "task_1".
Proof. repeat split; vm_compute; reflexivity. Qed.

Section Contexts.

Lemma DecodeCtx_bound (ctx : context.Context) (tc : TaskContext.t) :
  DecodeCtx (context.WithValue ctx (CtxKey "ctx") (CTaskContext tc)) = Ok tc.
Proof. reflexivity. Qed.

Lemma rebind_spec (t : ptr) (st : list ptr) :
  forall h h' : list Task,
    rebind t st h = Some h' ->
    length h' = length h /\
    (forall p, p ∈ st -> p < length h) /\
    (forall p, p ∈ st -> decodes h' p (TaskContext.mk (Some t) p)) /\
    (forall p, p ∉ st -> h' !! p = h !! p).
Proof.
  induction st as [|subtask st IH]; intros h h' H.
  - injection H as <-. split; [reflexivity|].
    split; [intros p Hp; now apply elem_of_nil in Hp|].
    split; [intros p Hp; now apply elem_of_nil in Hp|reflexivity].
  - cbn [rebind] in H.
    destruct (h !! t) as [parent|] eqn:Ht; [|discriminate H].
    destruct (h !! subtask) as [sub|] eqn:Hsub; [|discriminate H].
    destruct (Task.Context parent) as [pctx|] eqn:Hctx; [|discriminate H].
    apply IH in H as (Hlen & Hin & Hdec & Hout).
    rewrite length_insert in Hlen, Hin.
    apply lookup_lt_Some in Hsub as Hlt.
    split; [exact Hlen|]. split; [|split].
    + intros p Hp. apply elem_of_cons in Hp as [->|Hp]; [exact Hlt|now apply Hin].
    + intros p Hp. destruct (decide (p ∈ st)) as [Hst|Hst]; [now apply Hdec|].
      apply elem_of_cons in Hp as [->|Hp]; [|contradiction].
      eexists _, _. split; [|split].
      * rewrite Hout by exact Hst. apply list_lookup_insert_eq. exact Hlt.
      * reflexivity.
      * apply DecodeCtx_bound.
    + intros p Hp. apply not_elem_of_cons in Hp as [Hne Hp].
      rewrite Hout by exact Hp. now apply list_lookup_insert_ne.
Qed.

Lemma decodes_set_Subtasks (h : list Task) (t p : ptr) (parent : Task)
    (st : list ptr) (tc : TaskContext.t) :
  h !! t = Some parent ->
  decodes h p tc ->
  decodes (<[t := Task.set_Subtasks st parent]> h) p tc.
Proof.
  intros Ht (task & ctx & Hp & Hctx & Hdec).
  destruct (decide (p = t)) as [->|Hne].
  - rewrite Ht in Hp. injection Hp as <-.
    exists (Task.set_Subtasks st parent), ctx. split; [|split].
    + apply list_lookup_insert_eq. now apply lookup_lt_Some in Ht.
    + exact Hctx.
    + exact Hdec.
  - exists task, ctx. split; [|split; assumption].
    rewrite list_lookup_insert_ne by congruence. exact Hp.
Qed.

(** Every task the builder has made decodes to itself and to the task that
    last attached it. *)
Lemma built_decodes (s : state) (par : ptr -> option ptr) :
  built s par ->
  (forall p, length (heap s) <= p -> par p = None) /\
  (forall p, p < length (heap s) -> decodes (heap s) p (TaskContext.mk (par p) p)).
Proof.
  induction 1 as [|s par ctx cfgs _ [IHout IHin]
                  |s s' par t st _ [IHout IHin] Hadd].
  - split; [reflexivity|]. cbn. intros p Hp. lia.
  - cbn [New New_from snd heap]. rewrite length_app. cbn [length]. split.
    + intros p Hp. apply IHout. lia.
    + intros p Hp. destruct (decide (p < length (heap s))) as [Hlt|Hge].
      * destruct (IHin p Hlt) as (task & c & Hl & Hc & Hd).
        exists task, c. split; [|split; assumption].
        rewrite lookup_app_l by exact Hlt. exact Hl.
      * assert (p = length (heap s)) as -> by lia.
        rewrite IHout by lia.
        eexists _, _. split; [|split].
        -- rewrite lookup_app_r by lia. rewrite Nat.sub_diag. reflexivity.
        -- reflexivity.
        -- apply DecodeCtx_bound.
  - unfold AddSubtasks in Hadd.
    destruct (rebind t st (heap s)) as [h|] eqn:Hre; [|discriminate Hadd].
    destruct (h !! t) as [parent|] eqn:Ht; [|discriminate Hadd].
    injection Hadd as <-. cbn [heap].
    apply rebind_spec in Hre as (Hlen & Hlt & Hdec & Hsame).
    rewrite length_insert, Hlen. split.
    + intros p Hp. rewrite decide_False; [now apply IHout|].
      intros Hin. apply Hlt in Hin. lia.
    + intros p Hp. apply decodes_set_Subtasks; [exact Ht|].
      destruct (decide (p ∈ st)) as [Hin|Hnin]; [now apply Hdec|].
      destruct (IHin p Hp) as (task & c & Hl & Hc & Hd).
      exists task, c. split; [|split; assumption].
      rewrite Hsame by exact Hnin. exact Hl.
Qed.

End Contexts.



(** * More of the package *)

Section MoreContexts.

Lemma ckey_eqb_eq (a b : ckey) : ckey_eqb a b = true <-> a = b.
Proof.
  destruct a as [s|ty s], b as [s'|ty' s']; cbn.
  - rewrite String.eqb_eq. split; [now intros ->|now intros [= ->]].
  - split; discriminate.
  - split; discriminate.
  - rewrite andb_true_iff, !String.eqb_eq.
    split; [now intros [-> ->]|now intros [= -> ->]].
Qed.

Lemma Value_other_key (ctx : context.Context) (key key' : ckey) (val : cval) :
  key <> key' ->
  context.Value (context.WithValue ctx key val) key' = context.Value ctx key'.
Proof.
  intros Hne. cbn [context.Value].
  destruct (ckey_eqb key key') eqn:He; [|reflexivity].
  apply ckey_eqb_eq in He. contradiction.
Qed.

End MoreContexts.

(** [DecodeCtx] looks at the innermost binding under [CtxKey("ctx")] and at
    nothing else.  A binding under any other key, a plain string "ctx"
    included, leaves the decoded entry as it was; a binding under
    [CtxKey("ctx")] replaces it, and makes decoding fail when the bound value
    is not a [*TaskContext]. *)
Theorem DecodeCtx_innermost (ctx : context.Context) (key : ckey) (val : cval) :
  (key <> CtxKey "ctx" ->
   DecodeCtx (context.WithValue ctx key val) = DecodeCtx ctx) /\
  DecodeCtx (context.WithValue ctx (CtxKey "ctx") val) =
    match val with
    | CTaskContext tc => Ok tc
    | COther _ => Err "no context found"
    end.
Proof.
  split.
  - intros Hne. unfold DecodeCtx. now rewrite Value_other_key.
  - destruct val; reflexivity.
Qed.

Lemma DecodeCtx_innermost_witness :
  DecodeCtx
    (context.WithValue
       (context.WithValue context.Background (CtxKey "ctx")
          (CTaskContext (TaskContext.mk None 0)))
       (OtherKey "string" "ctx") (COther (VString "shadow"))) =
  DecodeCtx
    (context.WithValue context.Background (CtxKey "ctx")
       (CTaskContext (TaskContext.mk None 0))).
Proof.
  apply (proj1 (DecodeCtx_innermost _ (OtherKey "string" "ctx") _)).
  discriminate.
Defined.



Section Frames.

Lemma same_settings_refl (a : Task) : same_settings a a.
Proof. repeat split. Qed.

Lemma same_settings_trans (a b c : Task) :
  same_settings a b -> same_settings b c -> same_settings a c.
Proof.
  intros (H1 & H2 & H3 & H4) (G1 & G2 & G3 & G4).
  repeat split; etransitivity; eassumption.
Qed.

(** The loop of [AddSubtasks] writes nothing but the [Context] of the
    subtasks. *)
Lemma rebind_frame (t : ptr) (st : list ptr) :
  forall (h h' : list Task),
    rebind t st h = Some h' ->
    forall p task, h !! p = Some task ->
      exists task', h' !! p = Some task' /\
        same_settings task task' /\
        Task.Subtasks task' = Task.Subtasks task /\
        (p ∉ st -> task' = task).
Proof.
  induction st as [|subtask st IH]; intros h h' H p task Hp.
  - injection H as <-. exists task. repeat split; auto.
  - cbn [rebind] in H.
    destruct (h !! t) as [parent|] eqn:Ht; [|discriminate H].
    destruct (h !! subtask) as [sub|] eqn:Hsub; [|discriminate H].
    destruct (Task.Context parent) as [pctx|] eqn:Hctx; [|discriminate H].
    destruct (decide (p = subtask)) as [->|Hne].
    + rewrite Hsub in Hp. injection Hp as <-.
      edestruct (IH _ _ H subtask) as (task' & Hl & Hs & Hsub' & _).
      { apply list_lookup_insert_eq. now apply lookup_lt_Some in Hsub. }
      exists task'. split; [exact Hl|]. split; [|split].
      * eapply same_settings_trans; [|exact Hs]. repeat split.
      * rewrite Hsub'. reflexivity.
      * intros Hn. exfalso. apply Hn. apply elem_of_cons. now left.
    + edestruct (IH _ _ H p task) as (task' & Hl & Hs & Hsub' & Hsame).
      { rewrite list_lookup_insert_ne by congruence. exact Hp. }
      exists task'. split; [exact Hl|]. split; [exact Hs|]. split; [exact Hsub'|].
      intros Hn. apply Hsame. intros Hin. apply Hn. apply elem_of_cons. now right.
Qed.

Lemma rebind_length (t : ptr) (st : list ptr) :
  forall (h h' : list Task), rebind t st h = Some h' -> length h' = length h.
Proof. intros h h' H. now apply rebind_spec in H as [Hlen _]. Qed.

(** What [AddSubtasks] changes and what it leaves. *)
Lemma AddSubtasks_effect (t : ptr) (st : list ptr) (s s' : state) :
  AddSubtasks t st s = Some s' ->
  counter s' = counter s /\
  length (heap s') = length (heap s) /\
  forall p task, heap s !! p = Some task ->
    exists task', heap s' !! p = Some task' /\
      same_settings task task' /\
      Task.Subtasks task' =
        (if decide (p = t) then Task.Subtasks task ++ st else Task.Subtasks task) /\
      (p ∉ st -> Task.Context task' = Task.Context task).
Proof.
  unfold AddSubtasks. intros H.
  destruct (rebind t st (heap s)) as [h|] eqn:Hre; [|discriminate H].
  destruct (h !! t) as [parent|] eqn:Ht; [|discriminate H].
  injection H as <-. cbn [heap counter].
  split; [reflexivity|]. split.
  - rewrite length_insert. eapply rebind_length. exact Hre.
  - intros p task Hp.
    destruct (rebind_frame t st _ _ Hre p task Hp) as (task' & Hl & Hs & Hsub & Hsame).
    destruct (decide (p = t)) as [->|Hne].
    + rewrite Ht in Hl. injection Hl as <-.
      exists (Task.set_Subtasks (Task.Subtasks parent ++ st) parent).
      split; [apply list_lookup_insert_eq; now apply lookup_lt_Some in Ht|].
      split; [exact Hs|]. split; [cbn; now rewrite Hsub|].
      intros Hn. cbn. now rewrite (Hsame Hn).
    + exists task'. split; [now rewrite list_lookup_insert_ne by congruence|].
      split; [exact Hs|]. split; [exact Hsub|].
      intros Hn. now rewrite (Hsame Hn).
Qed.

End Frames.

(** [AddSubtasks] appends the subtasks, in the order given, after those the
    task already has, and rebinds their [Context]; it allocates nothing,
    leaves the counter alone, and changes no [ID], [Parameters], [Run] or
    [Revert], no [Subtasks] of another task and no [Context] of a task that
    is not among the subtasks. *)
Theorem AddSubtasks_frame (t : ptr) (st : list ptr) (s s' : state) :
  AddSubtasks t st s = Some s' ->
  counter s' = counter s /\
  length (heap s') = length (heap s) /\
  forall p task, heap s !! p = Some task ->
    exists task', heap s' !! p = Some task' /\
      same_settings task task' /\
      Task.Subtasks task' =
        (if decide (p = t) then Task.Subtasks task ++ st else Task.Subtasks task) /\
      (p ∉ st -> Task.Context task' = Task.Context task).
Proof. apply AddSubtasks_effect. Qed.

Lemma AddSubtasks_frame_witness :
  exists s s', (New context.Background [] (New context.Background [] init_state).2).2 = s /\
    family = Some s' /\
    counter s' = counter s /\
    length (heap s') = length (heap s) /\
    forall p task, heap s !! p = Some task ->
      exists task', heap s' !! p = Some task' /\
        same_settings task task' /\
        Task.Subtasks task' =
          (if decide (p = 0) then Task.Subtasks task ++ [1] else Task.Subtasks task) /\
        (p ∉ [1] -> Task.Context task' = Task.Context task).
Proof.
  eexists _, _. split; [reflexivity|]. split; [reflexivity|].
  apply (AddSubtasks_frame 0 [1]). reflexivity.
Defined.

Section BuilderStates.

(** Every task of the store has a context. *)
Lemma rebind_total (t : ptr) (st : list ptr) :
  forall h : list Task,
    (forall p, p < length h ->
       exists task ctx, h !! p = Some task /\ Task.Context task = Some ctx) ->
    t < length h ->
    Forall (fun p => p < length h) st ->
    exists h', rebind t st h = Some h'.
Proof.
  induction st as [|subtask st IH]; intros h Hall Ht Hst; [now exists h|].
  apply Forall_cons in Hst as [Hsub Hst].
  destruct (Hall t Ht) as (parent & pctx & Hlt & Hctx).
  destruct (Hall subtask Hsub) as (sub & sctx & Hls & _).
  cbn [rebind]. rewrite Hlt, Hls, Hctx.
  apply IH.
  - rewrite length_insert. intros p Hp.
    destruct (decide (p = subtask)) as [->|Hne].
    + eexists _, _. split; [now apply list_lookup_insert_eq|reflexivity].
    + rewrite list_lookup_insert_ne by congruence. now apply Hall.
  - now rewrite length_insert.
  - now rewrite length_insert.
Qed.

Lemma fold_keeps_ID (cfgs : list TaskConfigFunc) :
  Forall keeps_ID cfgs ->
  forall t : Task, Task.ID (fold_left (fun t cfg => cfg t) cfgs t) = Task.ID t.
Proof.
  induction 1 as [|cfg cfgs Hcfg _ IH]; intros t; [reflexivity|].
  cbn [fold_left]. rewrite IH. apply Hcfg.
Qed.

Lemma options_keep_ID (f : TaskFunc) (parameters : list value) :
  keeps_ID (WithFunc f) /\ keeps_ID (WithRevertFunc f) /\
  keeps_ID (WithParameters parameters).
Proof. repeat split. Qed.

(** Made one at a time, the tasks are numbered in the order they are made. *)
Lemma built_plain_ids (s : state) :
  built_plain s ->
  (Z.of_nat (length (heap s)) < 2 ^ 63)%Z ->
  counter s = Z.of_nat (length (heap s)) /\
  forall i task, heap s !! i = Some task -> Task.ID task = task_id (Z.of_nat i).
Proof.
  induction 1 as [|s ctx cfgs _ IH Hcfgs|s s' t st _ IH Hadd]; intros Hbound.
  - split; [reflexivity|]. intros i task Hi. discriminate Hi.
  - cbn [New New_from snd heap counter] in *.
    rewrite length_app in *. cbn [length] in *.
    destruct IH as [Hc Hids]; [lia|]. split.
    + rewrite Hc. rewrite wrap64_small; [lia|].
      assert (Hpos : (0 < 2 ^ 63)%Z) by reflexivity.
      revert Hbound Hpos. generalize (2 ^ 63)%Z. intros a Ha Hpos. lia.
    + intros i task Hi. apply lookup_app_Some in Hi as [Hi|[Hge Hi]].
      * now apply Hids.
      * apply list_lookup_singleton_Some in Hi as [Hi <-].
        cbn. rewrite fold_keeps_ID by exact Hcfgs. cbn.
        rewrite Hc. f_equal. lia.
  - destruct (AddSubtasks_effect _ _ _ _ Hadd) as (Hc & Hlen & Hframe).
    rewrite Hlen in *. destruct IH as [Hc' Hids]; [exact Hbound|].
    split; [now rewrite Hc|].
    intros i task' Hi.
    assert (Hlt : i < length (heap s)).
    { rewrite <- Hlen. now apply lookup_lt_Some in Hi. }
    apply lookup_lt_is_Some in Hlt as [task Htask].
    destruct (Hframe i task Htask) as (task'' & Hi' & (Hid & _) & _).
    rewrite Hi in Hi'. injection Hi' as <-.
    rewrite <- Hid. now apply Hids.
Qed.

End BuilderStates.

(** In a state the builder has reached, [AddSubtasks] returns exactly when
    the task and every subtask point to tasks that exist; with a nil or
    dangling pointer among them it panics. *)
Theorem AddSubtasks_succeeds (s : state) (par : ptr -> option ptr)
    (t : ptr) (st : list ptr) :
  built s par ->
  (is_Some (AddSubtasks t st s) <->
   t < length (heap s) /\ Forall (fun p => p < length (heap s)) st).
Proof.
  intros Hb. split.
  - intros [s' H]. unfold AddSubtasks in H.
    destruct (rebind t st (heap s)) as [h|] eqn:Hre; [|discriminate H].
    destruct (h !! t) as [parent|] eqn:Ht; [|discriminate H].
    apply rebind_spec in Hre as (Hlen & Hlt & _). split.
    + rewrite <- Hlen. now apply lookup_lt_Some in Ht.
    + apply Forall_forall. intros p Hp. apply Hlt. exact Hp.
  - intros [Ht Hst].
    destruct (built_decodes s par Hb) as [_ Hin].
    destruct (rebind_total t st (heap s)) as [h Hre]; [|exact Ht|exact Hst|].
    { intros p Hp. destruct (Hin p Hp) as (task & ctx & Hl & Hc & _).
      now exists task, ctx. }
    unfold AddSubtasks. rewrite Hre.
    apply rebind_length in Hre as Hlen. rewrite <- Hlen in Ht.
    apply lookup_lt_is_Some in Ht as [parent Hp]. rewrite Hp. eauto.
Qed.

Lemma AddSubtasks_succeeds_witness :
  is_Some (AddSubtasks 0 [1] (New context.Background []
                                (New context.Background [] init_state).2).2) <->
  0 < 2 /\ Forall (fun p => p < 2) [1].
Proof.
  exact (AddSubtasks_succeeds _ _ 0 [1]
           (built_New _ _ context.Background []
              (built_New _ _ context.Background [] built_init))).
Defined.

(** Tasks made one at a time, fewer than 2^63 of them and with options that
    leave the identifier alone, are numbered in the order they are made:
    the counter is the number of tasks, the i-th task is task_i, and no two
    tasks share an identifier. *)
Theorem New_ids_distinct (s : state) :
  built_plain s ->
  (Z.of_nat (length (heap s)) < 2 ^ 63)%Z ->
  counter s = Z.of_nat (length (heap s)) /\
  (forall i task, heap s !! i = Some task -> Task.ID task = task_id (Z.of_nat i)) /\
  (forall i j a b,
     heap s !! i = Some a -> heap s !! j = Some b ->
     Task.ID a = Task.ID b -> i = j).
Proof.
  intros Hb Hbound. destruct (built_plain_ids s Hb Hbound) as [Hc Hids].
  split; [exact Hc|]. split; [exact Hids|].
  intros i j a b Hi Hj Heq.
  rewrite (Hids i a Hi), (Hids j b Hj) in Heq.
  apply task_id_inj in Heq. lia.
Qed.

Lemma New_ids_distinct_witness :
  exists s, family = Some s /\
    counter s = Z.of_nat (length (heap s)) /\
    (forall i task, heap s !! i = Some task -> Task.ID task = task_id (Z.of_nat i)) /\
    (forall i j a b,
       heap s !! i = Some a -> heap s !! j = Some b ->
       Task.ID a = Task.ID b -> i = j).
Proof.
  exists (default init_state family). split; [reflexivity|].
  apply New_ids_distinct.
  - exact (plain_AddSubtasks _ _ 0 [1]
             (plain_New _ context.Background []
                (plain_New _ context.Background [] plain_init (List.Forall_nil _))
                (List.Forall_nil _))
             eq_refl).
  - reflexivity.
Defined.

Section Goroutines.

Lemma returned_count_le (gs : list goroutine) : returned_count gs <= length gs.
Proof.
  induction gs as [|g gs IH]; [reflexivity|].
  destruct g; cbn [returned_count length]; lia.
Qed.

Lemma returned_count_ready (gs : list goroutine) :
  Forall is_ready gs -> returned_count gs = 0.
Proof.
  induction 1 as [|g gs Hg _ IH]; [reflexivity|].
  destruct g; [exact IH|destruct Hg|destruct Hg].
Qed.

Lemma returned_count_load (gs : list goroutine) :
  forall i ctx cfgs n,
    gs !! i = Some (Ready ctx cfgs) ->
    returned_count (<[i := Loaded n ctx cfgs]> gs) = returned_count gs.
Proof.
  induction gs as [|g gs IH]; intros i ctx cfgs n Hi; [discriminate Hi|].
  destruct i as [|i].
  - injection Hi as ->. reflexivity.
  - cbn in Hi. change (<[S i := Loaded n ctx cfgs]> (g :: gs))
      with (g :: <[i := Loaded n ctx cfgs]> gs).
    destruct g; cbn [returned_count]; now rewrite (IH i ctx cfgs n Hi).
Qed.

Lemma returned_count_return (gs : list goroutine) :
  forall i ctx cfgs n p,
    gs !! i = Some (Loaded n ctx cfgs) ->
    returned_count (<[i := Returned p]> gs) = S (returned_count gs).
Proof.
  induction gs as [|g gs IH]; intros i ctx cfgs n p Hi; [discriminate Hi|].
  destruct i as [|i].
  - injection Hi as ->. reflexivity.
  - cbn in Hi. change (<[S i := Returned p]> (g :: gs))
      with (g :: <[i := Returned p]> gs).
    destruct g; cbn [returned_count]; now rewrite (IH i ctx cfgs n p Hi).
Qed.

Lemma step_counts (n : nat) (w : world) (i : nat) :
  (Z.of_nat n < 2 ^ 63)%Z -> counts n w -> counts n (step w i).
Proof.
  intros Hn (Hlen & Hc & Hh & Hval & Hinj). unfold step.
  destruct (goroutines w !! i) as [[ctx cfgs|m ctx cfgs|p]|] eqn:Hi;
    [| |repeat split; assumption|repeat split; assumption].
  - unfold counts. cbn [goroutines shared].
    rewrite (returned_count_load _ _ _ _ _ Hi), length_insert.
    split; [exact Hlen|]. split; [exact Hc|]. split; [exact Hh|]. split.
    + intros j p Hj. destruct (decide (j = i)) as [->|Hne].
      * rewrite list_lookup_insert_eq in Hj by (now apply lookup_lt_Some in Hi).
        discriminate Hj.
      * rewrite list_lookup_insert_ne in Hj by congruence. now apply (Hval j).
    + intros j k p Hj Hk.
      destruct (decide (j = i)) as [->|Hj'].
      { rewrite list_lookup_insert_eq in Hj by (now apply lookup_lt_Some in Hi).
        discriminate Hj. }
      destruct (decide (k = i)) as [->|Hk'].
      { rewrite list_lookup_insert_eq in Hk by (now apply lookup_lt_Some in Hi).
        discriminate Hk. }
      rewrite list_lookup_insert_ne in Hj, Hk by congruence.
      now apply (Hinj j k p).
  - unfold counts. cbn [New_from]. cbn [goroutines shared heap counter].
    rewrite (returned_count_return _ _ _ _ _ _ Hi), length_insert, length_app.
    cbn [length].
    pose proof (returned_count_le (<[i := Returned 0]> (goroutines w))) as Hle.
    rewrite (returned_count_return _ _ _ _ _ _ Hi), length_insert, Hlen in Hle.
    split; [exact Hlen|]. split; [|split; [lia|split]].
    + rewrite Hc. rewrite wrap64_small; [lia|].
      assert (Hpos : (0 < 2 ^ 63)%Z) by reflexivity.
      revert Hn Hpos. generalize (2 ^ 63)%Z. intros a Ha Hpos. lia.
    + intros j p Hj. destruct (decide (j = i)) as [->|Hne].
      * rewrite list_lookup_insert_eq in Hj by (now apply lookup_lt_Some in Hi).
        injection Hj as <-. lia.
      * rewrite list_lookup_insert_ne in Hj by congruence.
        apply Hval in Hj. lia.
    + intros j k p Hj Hk.
      destruct (decide (j = i)) as [->|Hj'], (decide (k = i)) as [->|Hk'];
        [reflexivity| | |].
      * rewrite list_lookup_insert_eq in Hj by (now apply lookup_lt_Some in Hi).
        rewrite list_lookup_insert_ne in Hk by congruence.
        injection Hj as <-. apply Hval in Hk. lia.
      * rewrite list_lookup_insert_eq in Hk by (now apply lookup_lt_Some in Hi).
        rewrite list_lookup_insert_ne in Hj by congruence.
        injection Hk as <-. apply Hval in Hj. lia.
      * rewrite list_lookup_insert_ne in Hj, Hk by congruence.
        now apply (Hinj j k p).
Qed.

Lemma run_schedule_counts (n : nat) (schedule : list nat) :
  (Z.of_nat n < 2 ^ 63)%Z ->
  forall w, counts n w -> counts n (run_schedule schedule w).
Proof.
  intros Hn. induction schedule as [|i schedule IH]; intros w Hw; [exact Hw|].
  apply IH. now apply step_counts.
Qed.

End Goroutines.

(** However the steps of concurrent calls of [New] interleave (fewer than
    2^63 goroutines, in a fresh process), the counter is the number of calls
    that have returned and so is the number of structs allocated, and the
    tasks returned are distinct structs, even when their identifiers are
    the same. *)
Theorem New_counter_counts (gs : list goroutine) (schedule : list nat) :
  Forall is_ready gs ->
  (Z.of_nat (length gs) < 2 ^ 63)%Z ->
  counter (shared (run_schedule schedule (mkWorld init_state gs))) =
    Z.of_nat (returned_count (goroutines (run_schedule schedule (mkWorld init_state gs)))) /\
  length (heap (shared (run_schedule schedule (mkWorld init_state gs)))) =
    returned_count (goroutines (run_schedule schedule (mkWorld init_state gs))) /\
  (forall i j p,
     goroutines (run_schedule schedule (mkWorld init_state gs)) !! i = Some (Returned p) ->
     goroutines (run_schedule schedule (mkWorld init_state gs)) !! j = Some (Returned p) ->
     i = j).
Proof.
  intros Hready Hn.
  destruct (run_schedule_counts (length gs) schedule Hn (mkWorld init_state gs))
    as (_ & Hc & Hh & _ & Hinj).
  - unfold counts. cbn [goroutines shared heap counter init_state].
    rewrite (returned_count_ready gs Hready).
    split; [reflexivity|]. split; [reflexivity|]. split; [reflexivity|].
    assert (Hno : forall i p, gs !! i <> Some (Returned p)).
    { intros i p Hi. apply list_elem_of_lookup_2 in Hi.
      rewrite Forall_forall in Hready. now apply Hready in Hi. }
    split.
    + intros i p Hi. now apply Hno in Hi.
    + intros i j p Hi. now apply Hno in Hi.
  - split; [exact Hc|]. split; [exact Hh|exact Hinj].
Qed.

Lemma New_counter_counts_witness :
  counter (shared (run_schedule [0; 1; 0; 1] two_callers)) =
    Z.of_nat (returned_count (goroutines (run_schedule [0; 1; 0; 1] two_callers))) /\
  length (heap (shared (run_schedule [0; 1; 0; 1] two_callers))) =
    returned_count (goroutines (run_schedule [0; 1; 0; 1] two_callers)) /\
  (forall i j p,
     goroutines (run_schedule [0; 1; 0; 1] two_callers) !! i = Some (Returned p) ->
     goroutines (run_schedule [0; 1; 0; 1] two_callers) !! j = Some (Returned p) ->
     i = j).
Proof.
  apply (New_counter_counts
           [Ready context.Background []; Ready context.Background []] [0; 1; 0; 1]).
  - repeat constructor.
  - reflexivity.
Defined.

Section Traces.

(** [Revert] calls nothing but [Revert] functions, each with the values it
    was given. *)
Lemma Revert_loop_calls (fuel : nat) :
  forall (q : list cell) (values : list value),
    Forall (fun ev => revert_values ev = Some values)
      (Reverted.calls (Revert_loop fuel q values)).
Proof.
  induction fuel as [|g IH]; intros q values; [constructor|].
  cbn [Revert_loop].
  destruct q as [|[t|] q]; [constructor| |constructor].
  destruct (Task.Revert (node t)) as [revert|]; [|apply IH].
  cbn zeta.
  destruct (revert (Task.Context (node t)) values) as [val err|].
  - cbn [Reverted.log Reverted.calls]. constructor; [reflexivity|apply IH].
  - cbn [Reverted.calls]. constructor; [reflexivity|constructor].
Qed.

Lemma revert_values_is_revert (values : list value) (l : list event) :
  Forall (fun ev => revert_values ev = Some values) l -> Forall is_revert l.
Proof.
  intros Hl. eapply Forall_impl; [exact Hl|].
  intros [p ctx vs out|p ctx vs out] H; [discriminate H|exact I].
Qed.

(** The trace of the loop of [Run]: successful calls, and then nothing, a
    call that panicked, or a call that failed followed by [Revert] calls. *)
Lemma Run_loop_shape (fuel : nat) :
  forall (arr : list cell) (tasks : tslice) (values result : list value)
         (successfulTasks : list cell),
    exists evs tail,
      Ran.calls (Run_loop fuel arr tasks values result successfulTasks) = evs ++ tail /\
      Forall is_success evs /\
      ((tail = [] /\
        (Ran.ret (Run_loop fuel arr tasks values result successfulTasks) = OutOfFuel \/
         Ran.ret (Run_loop fuel arr tasks values result successfulTasks) = Panic \/
         exists res,
           Ran.ret (Run_loop fuel arr tasks values result successfulTasks) =
             Done (Some res, None) /\
           length res = length result + length evs)) \/
       (exists p ctx vs, tail = [EvRun p ctx vs Panics] /\
          Ran.ret (Run_loop fuel arr tasks values result successfulTasks) = Panic) \/
       (exists p ctx vs val err rs,
          tail = EvRun p ctx vs (Returns val (Some err)) :: rs /\
          Forall is_revert rs /\
          Ran.ret (Run_loop fuel arr tasks values result successfulTasks) <>
            OutOfFuel /\
          forall ret,
            Ran.ret (Run_loop fuel arr tasks values result successfulTasks) = Done ret ->
            ret = (None, Some err))).
Proof.
  induction fuel as [|g IH]; intros arr tasks values result succ.
  { exists [], []. split; [reflexivity|]. split; [constructor|]. left. auto. }
  cbn [Run_loop].
  destruct (contents arr tasks) as [|c q].
  { exists [], []. split; [reflexivity|]. split; [constructor|].
    left. split; [reflexivity|]. right. right. exists result. split; [reflexivity|].
    cbn. lia. }
  destruct (set_first arr tasks None) as [arr1 tasks1].
  destruct c as [t|];
    [|exists [], []; split; [reflexivity|]; split; [constructor|]; left; auto].
  destruct (Task.Run (node t)) as [run|];
    [|exists [], []; split; [reflexivity|]; split; [constructor|]; left; auto].
  cbn zeta.
  destruct (run (Task.Context (node t)) values) as [val [e|]|] eqn:Hout.
  - exists [], (EvRun (addr t) (Task.Context (node t)) values (Returns val (Some e))
                 :: Reverted.calls (Revert succ values)).
    split; [reflexivity|]. split; [constructor|]. right. right.
    exists (addr t), (Task.Context (node t)), values, val, e,
      (Reverted.calls (Revert succ values)).
    split; [reflexivity|]. split.
    { eapply revert_values_is_revert. apply Revert_loop_calls. }
    cbn [Ran.ret]. pose proof (Revert_terminates succ values) as Hr.
    destruct (Reverted.ret (Revert succ values)); split;
      try discriminate; try (now destruct Hr); now intros ret [= <-].
  - destruct (append arr1 (rest tasks1) (map Some (subtasks t))) as [arr2 tasks3].
    cbn [Ran.log Ran.calls Ran.ret].
    destruct (IH arr2 tasks3 (values ++ [val]) (result ++ [val]) (prepend succ t))
      as (evs & tail & Hcalls & Hevs & Hshape).
    exists (EvRun (addr t) (Task.Context (node t)) values (Returns val None) :: evs),
      tail.
    split; [now rewrite Hcalls|]. split; [constructor; [exact I|exact Hevs]|].
    destruct Hshape as [[-> Hret]|[Hp|Hf]]; [left|right; left; exact Hp|right; right; exact Hf].
    split; [reflexivity|].
    destruct Hret as [Hret|[Hret|(res & Hret & Hlen)]]; [now left|right; now left|].
    right. right. exists res. split; [exact Hret|].
    rewrite length_app in Hlen. cbn [length] in *. lia.
  - exists [], [EvRun (addr t) (Task.Context (node t)) values Panics].
    split; [reflexivity|]. split; [constructor|]. right. left.
    now exists (addr t), (Task.Context (node t)), values.
Qed.

End Traces.

(** [Revert] never calls a [Run] function: every call it makes is a call of
    a [Revert] function, with exactly the values [Revert] was given; and it
    returns or panics on every list of tasks. *)
Theorem Revert_calls_only_reverts (tasks : list cell) (values : list value) :
  Forall (fun ev => revert_values ev = Some values)
    (Reverted.calls (Revert tasks values)) /\
  Reverted.ret (Revert tasks values) <> OutOfFuel.
Proof.
  split; [apply Revert_loop_calls|apply Revert_terminates].
Qed.

(** The shape of every call of [Run]: first the [Run] calls that succeeded,
    one per result; then either nothing more ([Run] returns the results, or
    panics on a nil task or a nil [Run] function), or one [Run] call that
    panicked, or one [Run] call that failed followed by [Revert] calls only:
    no [Run] function is called after a failure, and [Run] then returns that
    failure's error unless a [Revert] panics. *)
Theorem Run_trace_shape (arr : list cell) (off len : nat) (values : list value) :
  off + len <= length arr ->
  exists evs tail,
    Ran.calls (Run arr off len values) = evs ++ tail /\
    Forall is_success evs /\
    ((tail = [] /\
      (Ran.ret (Run arr off len values) = Panic \/
       exists res,
         Ran.ret (Run arr off len values) = Done (Some res, None) /\
         length res = length evs)) \/
     (exists p ctx vs, tail = [EvRun p ctx vs Panics] /\
        Ran.ret (Run arr off len values) = Panic) \/
     (exists p ctx vs val err rs,
        tail = EvRun p ctx vs (Returns val (Some err)) :: rs /\
        Forall is_revert rs /\
        (Ran.ret (Run arr off len values) = Done (None, Some err) \/
         Ran.ret (Run arr off len values) = Panic))).
Proof.
  intros Hwf. pose proof (Run_terminates arr off len values Hwf) as Hterm.
  unfold Run in *.
  destruct (Run_loop_shape (S (cells_size (take len (drop off arr)))) arr
              (InCaller off len) values [] [])
    as (evs & tail & Hcalls & Hevs & Hshape).
  exists evs, tail. split; [exact Hcalls|]. split; [exact Hevs|].
  destruct Hshape as [[-> Hret]|[Hp|Hf]]; [left|right; left; exact Hp|right; right].
  - split; [reflexivity|].
    destruct Hret as [Hret|[Hret|(res & Hret & Hlen)]];
      [contradiction|now left|right; now exists res].
  - destruct Hf as (p & ctx & vs & val & err & rs & -> & Hrs & _ & Hret).
    exists p, ctx, vs, val, err, rs. split; [reflexivity|]. split; [exact Hrs|].
    destruct (Ran.ret (Run_loop _ arr (InCaller off len) values [] []))
      as [ret| |]; [left|now right|contradiction].
    now rewrite (Hret ret eq_refl).
Qed.

Lemma Run_trace_shape_witness :
  exists t, saga = Some t /\
    exists evs tail,
      Ran.calls (Run [Some t] 0 1 []) = evs ++ tail /\
      Forall is_success evs /\
      ((tail = [] /\
        (Ran.ret (Run [Some t] 0 1 []) = Panic \/
         exists res,
           Ran.ret (Run [Some t] 0 1 []) = Done (Some res, None) /\
           length res = length evs)) \/
       (exists p ctx vs, tail = [EvRun p ctx vs Panics] /\
          Ran.ret (Run [Some t] 0 1 []) = Panic) \/
       (exists p ctx vs val err rs,
          tail = EvRun p ctx vs (Returns val (Some err)) :: rs /\
          Forall is_revert rs /\
          (Ran.ret (Run [Some t] 0 1 []) = Done (None, Some err) \/
           Ran.ret (Run [Some t] 0 1 []) = Panic))).
Proof.
  built_tree saga. apply Run_trace_shape. cbn. lia.
Defined.

Section ExactTraces.

Lemma run_list_calls (l : list TaskT) :
  forall (values result : list value) (successfulTasks : list cell),
    all_succeed l values = true ->
    (run_list l values result successfulTasks).1 = run_calls l values.
Proof.
  induction l as [|t l IH]; intros values result succ Hall; [reflexivity|].
  cbn [all_succeed] in Hall. cbn [run_list run_calls].
  destruct (Task.Run (node t)) as [run|] eqn:Hrun; [|discriminate Hall].
  cbn zeta.
  destruct (run (Task.Context (node t)) values) as [val [err|]|] eqn:Hout;
    try discriminate Hall.
  rewrite (run_value_success t run values val None Hrun Hout).
  specialize (IH (values ++ [val]) (result ++ [val]) (Some t :: succ) Hall).
  destruct (run_list l (values ++ [val]) (result ++ [val]) (Some t :: succ))
    as [evs e]. cbn [fst] in *.
  now rewrite IH.
Qed.

Lemma run_calls_length (l : list TaskT) :
  forall values, length (run_calls l values) = length l.
Proof.
  induction l as [|t l IH]; intros values; [reflexivity|].
  cbn [run_calls length]. now rewrite IH.
Qed.

(** A panic of [Run] that does not come from a [Revert] function comes
    before any [Revert] is called. *)
Lemma run_list_panics (l : list TaskT) :
  forall (values result : list value) (s : list TaskT),
    (forall r, r ∈ s ++ l -> forall x, in_tree x r -> revert_returns x) ->
    (run_list l values result (map Some s)).2 = Panic ->
    Forall (fun ev => ~ is_revert ev) (run_list l values result (map Some s)).1.
Proof.
  induction l as [|t l IH]; intros values result s Hrev; [discriminate|].
  cbn [run_list].
  destruct (Task.Run (node t)) as [run|]; [|constructor].
  cbn zeta.
  destruct (run (Task.Context (node t)) values) as [val [err|]|] eqn:Hout.
  - cbn [fst snd]. rewrite Revert_bfs; [discriminate|].
    intros x (r & Hr & Hx). apply (Hrev r); [|exact Hx].
    apply elem_of_app. now left.
  - specialize (IH (values ++ [val]) (result ++ [val]) (t :: s)).
    cbn [map] in IH.
    destruct (run_list l (values ++ [val]) (result ++ [val]) (Some t :: map Some s))
      as [evs e]. cbn [fst snd] in *.
    intros He. constructor; [now intros []|]. apply IH; [|exact He].
    intros r Hr. apply Hrev.
    rewrite elem_of_app, !elem_of_cons in *. tauto.
  - intros _. constructor; [now intros []|constructor].
Qed.

Lemma in_tree_leaf (x r : TaskT) : subtasks r = [] -> in_tree x r -> x = r.
Proof.
  intros Hr Hx. inversion Hx as [|y c Hc _]; subst; [reflexivity|].
  rewrite Hr in Hc. now apply elem_of_nil in Hc.
Qed.

(** Tasks without subtasks leave the queue in the order they entered it. *)
Lemma bfs_leaves (ts : list TaskT) : leaves ts -> bfs ts = ts.
Proof.
  induction 1 as [|t ts Ht _ IH]; [reflexivity|].
  now rewrite bfs_cons, Ht, app_nil_r, IH.
Qed.

Lemma leaves_rev (ts : list TaskT) : leaves ts -> leaves (rev ts).
Proof.
  unfold leaves. rewrite !Forall_forall. intros H x Hx.
  apply H. now apply elem_of_rev.
Qed.

Lemma preorder_unfold (x : TaskT) :
  preorder x = x :: concat (map preorder (subtasks x)).
Proof. destruct x as [p [i ps c st r v]]. reflexivity. Qed.

(** On a chain the level order is the pre-order. *)
Lemma bfs_linear (t : TaskT) : linear t -> bfs [t] = preorder t.
Proof.
  induction 1 as [t Ht|t c Ht _ IH].
  - now rewrite bfs_cons, preorder_unfold, Ht.
  - rewrite bfs_cons, preorder_unfold, Ht. cbn [app map concat].
    now rewrite IH, app_nil_r.
Qed.

(** So it is on a task whose subtasks have none. *)
Lemma bfs_star (t : TaskT) :
  leaves (subtasks t) -> bfs [t] = t :: subtasks t /\ preorder t = t :: subtasks t.
Proof.
  intros Hl. split.
  - rewrite bfs_cons. cbn [app]. now rewrite bfs_leaves.
  - rewrite preorder_unfold. f_equal.
    induction Hl as [|c cs Hc _ IH]; [reflexivity|].
    cbn [map concat]. rewrite preorder_unfold, Hc, IH. reflexivity.
Qed.

End ExactTraces.

(** When every task's [Run] succeeds on the values it is given in the run,
    [Run] calls each task's [Run] exactly once, in level order, each with
    the task's own [Context] and with the initial values followed by the
    values of all the tasks called before it, its earlier siblings included;
    it calls no [Revert]. *)
Theorem Run_calls_level_order (arr : list cell) (off len : nat) (ts : list TaskT)
    (values : list value) :
  off + len <= length arr ->
  take len (drop off arr) = map Some ts ->
  all_succeed (bfs ts) values = true ->
  Ran.calls (Run arr off len values) = run_calls (bfs ts) values /\
  length (Ran.calls (Run arr off len values)) = forest_size ts.
Proof.
  intros Hwf Hc Hall.
  pose proof (Run_run_list arr off len ts values Hwf Hc) as H.
  apply (f_equal fst) in H. cbn [fst] in H. rewrite H.
  rewrite run_list_calls by exact Hall.
  split; [reflexivity|]. rewrite run_calls_length. apply bfs_length.
Qed.

Lemma Run_calls_level_order_witness :
  exists t, chain = Some t /\
    Ran.calls (Run [Some t] 0 1 []) = run_calls (bfs [t]) [] /\
    length (Ran.calls (Run [Some t] 0 1 [])) = forest_size [t].
Proof.
  built_reading chain. apply Run_calls_level_order.
  - cbn. lia.
  - reflexivity.
  - vm_compute. reflexivity.
Defined.

(** A panic skips compensation.  When no [Revert] function panics and [Run]
    panics all the same (a [Run] function panicked or was never set), no
    [Revert] has been called, whatever tasks had succeeded before. *)
Theorem Run_panic_skips_revert (arr : list cell) (off len : nat) (ts : list TaskT)
    (values : list value) :
  off + len <= length arr ->
  take len (drop off arr) = map Some ts ->
  (forall t, in_forest t ts -> revert_returns t) ->
  Ran.ret (Run arr off len values) = Panic ->
  Forall (fun ev => ~ is_revert ev) (Ran.calls (Run arr off len values)).
Proof.
  intros Hwf Hc Hall Hp.
  pose proof (Run_run_list arr off len ts values Hwf Hc) as H.
  pose proof (run_list_panics (bfs ts) values [] []) as Hl.
  cbn [map app] in Hl. rewrite <- H in Hl. cbn [fst snd] in Hl.
  apply Hl; [|exact Hp].
  intros r Hr x Hx. apply elem_of_bfs in Hr as (r0 & Hr0 & Hr).
  apply Hall. exists r0. split; [exact Hr0|]. eapply in_tree_trans; eassumption.
Qed.

Lemma Run_panic_skips_revert_witness :
  exists ts, crash = Some ts /\
    Ran.ret (Run (map Some ts) 0 2 []) = Panic /\
    Forall (fun ev => ~ is_revert ev) (Ran.calls (Run (map Some ts) 0 2 [])).
Proof.
  built_tree crash. split; [vm_compute; reflexivity|].
  match goal with
  | |- context [Run (map Some ?ts)] =>
      apply (Run_panic_skips_revert (map Some ts) 0 2 ts [])
  end.
  - cbn. lia.
  - reflexivity.
  - intros x Hx. each_task Hx;
      (intros revert Hr ctx vs; first [discriminate Hr|injection Hr as <-; discriminate]).
  - vm_compute. reflexivity.
Defined.

(** On tasks without subtasks the unwind is what the comment on [Run]
    describes.  When one of them returns an error on the values it is given,
    those before it having returned without error, [Run] has called the
    tasks before it in order, calls no task after it, and then calls the
    [Revert] of those that succeeded, where set, once each and in reverse
    order, with the initial values followed by the values they produced; it
    returns the failure's error and no results. *)
Theorem Run_flat_unwind (arr : list cell) (off len : nat) (ts : list TaskT)
    (values : list value) :
  off + len <= length arr ->
  take len (drop off arr) = map Some ts ->
  leaves ts ->
  (forall t, t ∈ ts -> revert_returns t) ->
  one_fails ts values = true ->
  exists pre t post val err,
    ts = pre ++ t :: post /\
    all_succeed pre values = true /\
    Ran.calls (Run arr off len values) =
      run_calls pre values
        ++ EvRun (addr t) (Task.Context (node t)) (values ++ produced pre values)
             (Returns val (Some err))
        :: revert_calls (values ++ produced pre values) (rev pre) /\
    Ran.ret (Run arr off len values) = Done (None, Some err).
Proof.
  intros Hwf Hc Hleaves Hall Hfail.
  pose proof (Run_run_list arr off len ts values Hwf Hc) as H.
  rewrite (bfs_leaves ts Hleaves) in H.
  destruct (run_list_fails ts values [] [] Hfail)
    as (pre & t & post & val & err & Hl & Hpre & Hrun).
  - intros r Hr x Hx. cbn [app] in Hr.
    assert (x = r) as ->; [|now apply Hall].
    apply in_tree_leaf; [|exact Hx].
    unfold leaves in Hleaves. rewrite Forall_forall in Hleaves. now apply Hleaves.
  - exists pre, t, post, val, err. split; [exact Hl|]. split; [exact Hpre|].
    pose proof (eq_trans H Hrun) as H'. rewrite app_nil_r in H'.
    rewrite bfs_leaves in H'.
    + injection H' as Hcalls Hret. auto.
    + apply leaves_rev. unfold leaves in *. rewrite Hl in Hleaves.
      now apply Forall_app in Hleaves as [Hp _].
Qed.

Lemma Run_flat_unwind_witness :
  exists ts, trio = Some ts /\
    exists pre t post val err,
      ts = pre ++ t :: post /\
      all_succeed pre [VInt 7] = true /\
      Ran.calls (Run (map Some ts) 0 3 [VInt 7]) =
        run_calls pre [VInt 7]
          ++ EvRun (addr t) (Task.Context (node t)) ([VInt 7] ++ produced pre [VInt 7])
               (Returns val (Some err))
          :: revert_calls ([VInt 7] ++ produced pre [VInt 7]) (rev pre) /\
      Ran.ret (Run (map Some ts) 0 3 [VInt 7]) = Done (None, Some err).
Proof.
  built_tree trio.
  match goal with
  | |- context [Run (map Some ?ts)] =>
      apply (Run_flat_unwind (map Some ts) 0 3 ts [VInt 7])
  end.
  - cbn. lia.
  - reflexivity.
  - repeat constructor.
  - intros x Hx. repeat (apply elem_of_cons in Hx as [->|Hx]);
      [..|now apply elem_of_nil in Hx];
      (intros revert Hr ctx vs; injection Hr as <-; discriminate).
  - vm_compute. reflexivity.
Defined.

(** On a chain, where every task has at most one subtask, the queue order of
    [Run] is the pre-order: when every [Run] succeeds on the values it is
    given, the results are each task's value followed by those of its
    descendants, as for the tasks of [TestSimpleTaskChain], which read
    [values[0]] and [values[1]]. *)
Theorem Run_chain_preorder (t : TaskT) (values : list value) :
  linear t ->
  all_succeed (preorder t) values = true ->
  Ran.ret (Run_literal [t] values) =
    Done (Some (produced (preorder t) values), None).
Proof.
  intros Hlin Hall.
  pose proof (Run_run_list [Some t] 0 1 [t] values) as H.
  apply (f_equal snd) in H; [|cbn; lia|reflexivity]. cbn [snd] in H.
  unfold Run_literal. cbn [map length]. rewrite H.
  rewrite (bfs_linear t Hlin).
  now rewrite run_list_succeeds.
Qed.

Lemma Run_chain_preorder_witness :
  exists t, test_chain = Some t /\
    Ran.ret (Run_literal [t] []) = Done (Some (produced (preorder t) []), None).
Proof.
  built_reading test_chain. apply Run_chain_preorder.
  - eapply linear_link; [reflexivity|].
    eapply linear_link; [reflexivity|].
    apply linear_end. reflexivity.
  - vm_compute. reflexivity.
Defined.

(** On a task whose subtasks have no subtasks of their own, as in
    [TestLargeTasks], [Run] returns the task's value followed by the values
    of its subtasks in attachment order, one more result than there are
    subtasks, when every [Run] succeeds on the values it is given; this is
    the pre-order too. *)
Theorem Run_star (t : TaskT) (values : list value) :
  leaves (subtasks t) ->
  all_succeed (t :: subtasks t) values = true ->
  Ran.ret (Run_literal [t] values) =
    Done (Some (produced (t :: subtasks t) values), None) /\
  length (produced (t :: subtasks t) values) = S (length (subtasks t)) /\
  preorder t = t :: subtasks t.
Proof.
  intros Hl Hall. destruct (bfs_star t Hl) as [Hbfs Hpre].
  split; [|split; [now rewrite produced_length|exact Hpre]].
  pose proof (Run_run_list [Some t] 0 1 [t] values) as H.
  apply (f_equal snd) in H; [|cbn; lia|reflexivity]. cbn [snd] in H.
  unfold Run_literal. cbn [map length]. rewrite H, Hbfs.
  now rewrite run_list_succeeds.
Qed.

Lemma Run_star_witness :
  exists ab, pair = Some ab /\
    Ran.ret (Run_literal [ab.1] []) =
      Done (Some (produced (ab.1 :: subtasks ab.1) []), None) /\
    length (produced (ab.1 :: subtasks ab.1) []) = S (length (subtasks ab.1)) /\
    preorder ab.1 = ab.1 :: subtasks ab.1.
Proof.
  built_tree pair. apply Run_star.
  - repeat constructor.
  - vm_compute. reflexivity.
Defined.

Section CallerArrayMore.

Lemma Run_loop_mem_length (fuel : nat) :
  forall (arr : list cell) (tasks : tslice) (values result : list value)
         (successfulTasks : list cell),
    length (Ran.mem (Run_loop fuel arr tasks values result successfulTasks)) =
    length arr.
Proof.
  induction fuel as [|g IH]; intros arr tasks values result succ; [reflexivity|].
  cbn [Run_loop].
  destruct (contents arr tasks) as [|c q]; [reflexivity|].
  assert (Hset : length (set_first arr tasks None).1 = length arr).
  { destruct tasks; cbn; [apply length_insert|reflexivity]. }
  destruct (set_first arr tasks None) as [arr1 tasks1]. cbn [fst] in Hset.
  destruct c as [t|]; [|exact Hset].
  destruct (Task.Run (node t)) as [run|]; [|exact Hset].
  cbn zeta.
  destruct (run (Task.Context (node t)) values) as [val [e|]|]; try exact Hset.
  assert (Happ : length (append arr1 (rest tasks1) (map Some (subtasks t))).1 =
                 length arr1).
  { destruct tasks1 as [o l|q1]; cbn [rest append]; [|reflexivity].
    destruct (decide (S o + (l - 1) + length (map Some (subtasks t)) <= length arr1));
      cbn [fst]; [apply length_inserts|reflexivity]. }
  destruct (append arr1 (rest tasks1) (map Some (subtasks t))) as [arr2 tasks3].
  cbn [fst Ran.log Ran.mem] in *. rewrite IH. congruence.
Qed.

End CallerArrayMore.

(** What [Run] does to the caller's backing array: it keeps its length and
    the elements before the slice; and when the slice has no spare capacity,
    as a slice literal has none, every element of the array is afterwards
    what it was or nil: no pointer is written into it. *)
Theorem Run_writes_only_nil (arr : list cell) (off len : nat) (values : list value) :
  off + len <= length arr ->
  length (Ran.mem (Run arr off len values)) = length arr /\
  (forall i, i < off -> Ran.mem (Run arr off len values) !! i = arr !! i) /\
  (off + len = length arr ->
   forall i, Ran.mem (Run arr off len values) !! i = arr !! i \/
             Ran.mem (Run arr off len values) !! i = Some None).
Proof.
  intros Hwf. unfold Run.
  pose proof (Run_loop_mem_length (S (cells_size (take len (drop off arr)))) arr
                (InCaller off len) values [] []) as Hlen.
  destruct (Run_loop_mem (S (cells_size (take len (drop off arr)))) arr off len
              values [] [] Hwf) as (j & _ & Hj).
  split; [exact Hlen|]. split.
  - intros i Hi. rewrite Hj by lia. rewrite decide_False by lia. reflexivity.
  - intros Hfull i. destruct (decide (i < off + len)) as [Hi|Hi].
    + rewrite Hj by exact Hi.
      destruct (decide (off <= i < off + j)); [now right|now left].
    + left. rewrite !lookup_ge_None_2; [reflexivity|lia|lia].
Qed.

Lemma Run_writes_only_nil_witness :
  exists ab, pair = Some ab /\
    length (Ran.mem (Run [Some ab.1; Some ab.2] 0 2 [])) =
      length [Some ab.1; Some ab.2] /\
    (forall i, i < 0 ->
       Ran.mem (Run [Some ab.1; Some ab.2] 0 2 []) !! i =
         [Some ab.1; Some ab.2] !! i) /\
    (0 + 2 = length [Some ab.1; Some ab.2] ->
     forall i, Ran.mem (Run [Some ab.1; Some ab.2] 0 2 []) !! i =
                 [Some ab.1; Some ab.2] !! i \/
               Ran.mem (Run [Some ab.1; Some ab.2] 0 2 []) !! i = Some None).
Proof.
  built_tree pair.
  apply (Run_writes_only_nil _ 0 2 []). cbn. lia.
Defined.

(** A slice that [Run] has been called on cannot be run again: its first
    element is nil by then, so a second call on the same non-empty slice
    panics before it calls any task function. *)
Theorem Run_again_panics (arr : list cell) (off len : nat)
    (values values' : list value) :
  off + len <= length arr ->
  0 < len ->
  Ran.ret (Run (Ran.mem (Run arr off len values)) off len values') = Panic /\
  Ran.calls (Run (Ran.mem (Run arr off len values)) off len values') = [].
Proof.
  intros Hwf Hlen.
  assert (Hfirst : Ran.mem (Run arr off len values) !! off = Some None).
  { unfold Run.
    destruct (Run_loop_mem (S (cells_size (take len (drop off arr)))) arr off len
                values [] [] Hwf) as (j & Hpos & Hj).
    rewrite Hj by lia. rewrite decide_True; [reflexivity|].
    specialize (Hpos ltac:(lia) Hlen). lia. }
  remember (Ran.mem (Run arr off len values)) as m eqn:Hm. clear Hm.
  assert (Hc : exists q, take len (drop off m) = None :: q).
  { pose proof (lookup_window m off len 0) as Hl.
    rewrite decide_True in Hl by exact Hlen. rewrite Nat.add_0_r, Hfirst in Hl.
    destruct (take len (drop off m)) as [|c q]; [discriminate Hl|].
    injection Hl as ->. now exists q. }
  destruct Hc as [q Hc]. unfold Run. rewrite Hc.
  cbn [Run_loop contents]. rewrite Hc. cbn. split; reflexivity.
Qed.

Lemma Run_again_panics_witness :
  exists ab, pair = Some ab /\
    Ran.ret (Run (Ran.mem (Run [Some ab.1; Some ab.2] 0 2 [])) 0 2 []) = Panic /\
    Ran.calls (Run (Ran.mem (Run [Some ab.1; Some ab.2] 0 2 [])) 0 2 []) = [].
Proof.
  built_tree pair.
  apply (Run_again_panics _ 0 2 [] []); cbn; lia.
Defined.

Section Permanence.

Lemma later_keeps (s s' : state) :
  later s s' ->
  forall p task, heap s !! p = Some task ->
    exists task', heap s' !! p = Some task' /\
      same_settings task task' /\
      Task.Subtasks task `prefix_of` Task.Subtasks task'.
Proof.
  induction 1 as [|s' ctx cfgs _ IH|s' s'' t st _ IH Hadd]; intros p task Hp.
  - exists task. split; [exact Hp|]. split; [apply same_settings_refl|reflexivity].
  - destruct (IH p task Hp) as (task' & Hl & Hs & Hpre).
    exists task'. split; [|split; assumption].
    cbn [New New_from snd heap]. apply lookup_app_l_Some. exact Hl.
  - destruct (IH p task Hp) as (task' & Hl & Hs & Hpre).
    destruct (AddSubtasks_effect _ _ _ _ Hadd) as (_ & _ & Hframe).
    destruct (Hframe p task' Hl) as (task'' & Hl' & Hs' & Hsub & _).
    exists task''. split; [exact Hl'|]. split.
    + eapply same_settings_trans; eassumption.
    + rewrite Hsub. destruct (decide (p = t)); [|exact Hpre].
      now apply prefix_app_r.
Qed.

End Permanence.

(** What the builder never does.  Once a task is made, no later call of
    [New] or [AddSubtasks] changes its [ID], [Parameters], [Run] or
    [Revert], frees it or moves it, or removes or reorders its subtasks:
    its [Subtasks] only ever grow at the end. *)
Theorem settings_are_permanent (s s' : state) (p : ptr) (task : Task) :
  later s s' ->
  heap s !! p = Some task ->
  exists task', heap s' !! p = Some task' /\
    Task.ID task' = Task.ID task /\
    Task.Parameters task' = Task.Parameters task /\
    Task.Run task' = Task.Run task /\
    Task.Revert task' = Task.Revert task /\
    Task.Subtasks task `prefix_of` Task.Subtasks task'.
Proof.
  intros Hl Hp.
  destruct (later_keeps s s' Hl p task Hp) as (task' & Hl' & (H1 & H2 & H3 & H4) & Hpre).
  exists task'. repeat split; auto.
Qed.

Lemma settings_are_permanent_witness :
  exists s', with_parameters = Some s' /\
    exists task', heap s' !! 0 = Some task' /\
      Task.ID task' = "task_0" /\
      Task.Parameters task' = [VInt 5] /\
      Task.Run task' = Some (constant VNil) /\
      Task.Revert task' = None /\
      [] `prefix_of` Task.Subtasks task'.
Proof.
  exists (default init_state with_parameters). split; [reflexivity|].
  apply (settings_are_permanent
           (New context.Background [WithParameters [VInt 5]; WithFunc (constant VNil)]
              init_state).2
           (default init_state with_parameters) 0
           (Task.mk "task_0" [VInt 5]
              (Some (context.WithValue context.Background (CtxKey "ctx")
                       (CTaskContext (TaskContext.mk None 0))))
              [] (Some (constant VNil)) None)).
  - apply (later_AddSubtasks _
             (New context.Background [WithFunc (constant VNil)]
                (New context.Background
                   [WithParameters [VInt 5]; WithFunc (constant VNil)]
                   init_state).2).2
             _ 0 [1]).
    + apply later_New. apply later_now.
    + reflexivity.
  - reflexivity.
Defined.

Section ContextsInside.

(** The nodes of a tree read out of the store carry the contexts of the
    store. *)
Lemma tree_of_nodes (depth : nat) (h : list Task) :
  forall (p : ptr) (t : TaskT),
    tree_of depth h p = Some t ->
    forall x, in_tree x t ->
      exists task, h !! addr x = Some task /\
        Task.Context (node x) = Task.Context task.
Proof.
  induction depth as [|d IH]; intros p t Ht x Hx; [discriminate Ht|].
  cbn [tree_of] in Ht.
  destruct (h !! p) as [task|] eqn:Hp; [|discriminate Ht]. cbn in Ht.
  destruct (mapM (tree_of d h) (Task.Subtasks task)) as [st|] eqn:Hst;
    [|discriminate Ht].
  cbn in Ht. injection Ht as <-.
  apply mapM_Some_1 in Hst.
  inversion Hx as [|y c Hc Hxc]; subst.
  - exists task. split; [exact Hp|reflexivity].
  - cbn in Hc. apply list_elem_of_lookup_1 in Hc as [i Hi].
    destruct (Forall2_lookup_r _ _ _ _ _ Hst Hi) as (q & _ & Hq).
    now apply (IH q c).
Qed.

(** Every call [Revert] makes is the call of a task of its forest, with that
    task's context. *)
Lemma Revert_loop_events (fuel : nat) :
  forall (q : list TaskT) (values : list value) (ev : event),
    ev ∈ Reverted.calls (Revert_loop fuel (map Some q) values) ->
    exists x, in_forest x q /\
      event_task ev = addr x /\ event_ctx ev = Task.Context (node x).
Proof.
  induction fuel as [|g IH]; intros q values ev Hev.
  { now apply elem_of_nil in Hev. }
  destruct q as [|t q]; [now apply elem_of_nil in Hev|].
  cbn [map Revert_loop] in Hev. rewrite <- map_app in Hev.
  assert (Hrec : ev ∈ Reverted.calls (Revert_loop g (map Some (q ++ subtasks t)) values) ->
                 exists x, in_forest x (t :: q) /\
                   event_task ev = addr x /\ event_ctx ev = Task.Context (node x)).
  { intros H. destruct (IH _ _ _ H) as (x & Hx & Hev').
    exists x. split; [|exact Hev']. apply in_forest_cons. now right. }
  destruct (Task.Revert (node t)) as [revert|]; [|now apply Hrec].
  cbn zeta in Hev.
  assert (Hhere : forall out,
            ev = EvRevert (addr t) (Task.Context (node t)) values out ->
            exists x, in_forest x (t :: q) /\
              event_task ev = addr x /\ event_ctx ev = Task.Context (node x)).
  { intros out ->. exists t. split; [|split; reflexivity].
    apply in_forest_cons. now left. }
  destruct (revert (Task.Context (node t)) values) as [val err|].
  - cbn [Reverted.log Reverted.calls] in Hev.
    apply elem_of_cons in Hev as [Hev|Hev]; [now apply (Hhere _ Hev)|now apply Hrec].
  - cbn [Reverted.calls] in Hev.
    apply elem_of_cons in Hev as [Hev|Hev]; [now apply (Hhere _ Hev)|].
    now apply elem_of_nil in Hev.
Qed.

Lemma in_forest_incl (x : TaskT) (a b : list TaskT) :
  (forall r, r ∈ a -> r ∈ b) -> in_forest x a -> in_forest x b.
Proof. intros Hab (r & Hr & Hx). exists r. split; [now apply Hab|exact Hx]. Qed.

(** So is every call [Run] makes. *)
Lemma run_list_events (l : list TaskT) :
  forall (values result : list value) (s : list TaskT) (ev : event),
    ev ∈ (run_list l values result (map Some s)).1 ->
    exists x, in_forest x (s ++ l) /\
      event_task ev = addr x /\ event_ctx ev = Task.Context (node x).
Proof.
  induction l as [|t l IH]; intros values result s ev Hev.
  { now apply elem_of_nil in Hev. }
  cbn [run_list] in Hev.
  destruct (Task.Run (node t)) as [run|]; [|now apply elem_of_nil in Hev].
  cbn zeta in Hev.
  assert (Hhere : forall out,
            ev = EvRun (addr t) (Task.Context (node t)) values out ->
            exists x, in_forest x (s ++ t :: l) /\
              event_task ev = addr x /\ event_ctx ev = Task.Context (node x)).
  { intros out ->. exists t. split; [|split; reflexivity].
    apply in_forest_root. apply elem_of_app. right. apply elem_of_cons. now left. }
  destruct (run (Task.Context (node t)) values) as [val [err|]|].
  - cbn [fst] in Hev. apply elem_of_cons in Hev as [Hev|Hev];
      [now apply (Hhere _ Hev)|].
    unfold Revert in Hev. rewrite cells_size_some in Hev.
    destruct (Revert_loop_events _ _ _ _ Hev) as (x & Hx & Hev').
    exists x. split; [|exact Hev'].
    eapply in_forest_incl; [|exact Hx]. intros r Hr. apply elem_of_app. now left.
  - specialize (IH (values ++ [val]) (result ++ [val]) (t :: s) ev).
    cbn [map] in IH.
    destruct (run_list l (values ++ [val]) (result ++ [val]) (Some t :: map Some s))
      as [evs e]. cbn [fst] in *.
    apply elem_of_cons in Hev as [Hev|Hev]; [now apply (Hhere _ Hev)|].
    destruct (IH Hev) as (x & Hx & Hev').
    exists x. split; [|exact Hev'].
    eapply in_forest_incl; [|exact Hx]. intros r Hr.
    rewrite elem_of_app, !elem_of_cons in *. tauto.
  - cbn [fst] in Hev. apply elem_of_cons in Hev as [Hev|Hev];
      [now apply (Hhere _ Hev)|now apply elem_of_nil in Hev].
Qed.

Lemma Run_events (arr : list cell) (off len : nat) (ts : list TaskT)
    (values : list value) (ev : event) :
  off + len <= length arr ->
  take len (drop off arr) = map Some ts ->
  ev ∈ Ran.calls (Run arr off len values) ->
  exists x, in_forest x ts /\
    event_task ev = addr x /\ event_ctx ev = Task.Context (node x).
Proof.
  intros Hwf Hc Hev.
  pose proof (Run_run_list arr off len ts values Hwf Hc) as H.
  apply (f_equal fst) in H. cbn [fst] in H. rewrite H in Hev.
  destruct (run_list_events (bfs ts) values [] [] ev Hev) as (x & Hx & Hev').
  exists x. split; [|exact Hev'].
  destruct Hx as (r & Hr & Hx). cbn [app] in Hr.
  apply elem_of_bfs in Hr as (r0 & Hr0 & Hr).
  exists r0. split; [exact Hr0|]. eapply in_tree_trans; eassumption.
Qed.

End ContextsInside.

(** Inside [Run], on trees the builder made, every task function, [Run] or
    [Revert], is handed a context on which [MustDecodeCtx] does not panic:
    it yields the task whose function is running and the task that attached
    it (nil for a root), which is what the functions of the example programs
    rely on. *)
Theorem Run_contexts_decode (s : state) (par : ptr -> option ptr) (depth : nat)
    (ps : list ptr) (ts : list TaskT) (values : list value) :
  built s par ->
  mapM (tree_of depth (heap s)) ps = Some ts ->
  Forall (fun ev =>
            exists ctx, event_ctx ev = Some ctx /\
              MustDecodeCtx ctx =
                Some (TaskContext.mk (par (event_task ev)) (event_task ev)))
    (Ran.calls (Run_literal ts values)).
Proof.
  intros Hb Hts. apply Forall_forall. intros ev Hev.
  unfold Run_literal in Hev.
  destruct (Run_events (map Some ts) 0 (length ts) ts values ev) as (x & Hx & Ha & Hc).
  - rewrite length_map. lia.
  - rewrite drop_0. apply take_ge. rewrite length_map. lia.
  - exact Hev.
  - destruct Hx as (r & Hr & Hx).
    apply mapM_Some_1 in Hts.
    apply list_elem_of_lookup_1 in Hr as [i Hi].
    destruct (Forall2_lookup_r _ _ _ _ _ Hts Hi) as (q & _ & Hq).
    destruct (tree_of_nodes _ _ _ _ Hq x Hx) as (task & Hl & Hctx).
    destruct (built_decodes s par Hb) as [_ Hin].
    destruct (Hin (addr x)) as (task' & ctx & Hl' & Hctx' & Hdec).
    + now apply lookup_lt_Some in Hl.
    + rewrite Hl in Hl'. injection Hl' as <-.
      exists ctx. rewrite Hc, Hctx, Ha. split; [exact Hctx'|].
      unfold MustDecodeCtx. now rewrite Hdec.
Qed.

Lemma Run_contexts_decode_witness :
  exists s, with_parameters = Some s /\
    exists ts, mapM (tree_of 2 (heap s)) [0] = Some ts /\
      Forall (fun ev =>
                exists ctx, event_ctx ev = Some ctx /\
                  MustDecodeCtx ctx =
                    Some (TaskContext.mk (first_attached_second (event_task ev))
                            (event_task ev)))
        (Ran.calls (Run_literal ts [])).
Proof.
  exists (default init_state with_parameters). split; [reflexivity|].
  eexists. split; [reflexivity|].
  apply (Run_contexts_decode (default init_state with_parameters)
           first_attached_second 2 [0]).
  - exact (built_AddSubtasks
             (New context.Background [WithFunc (constant VNil)]
                (New context.Background
                   [WithParameters [VInt 5]; WithFunc (constant VNil)]
                   init_state).2).2
             _ _ 0 [1]
             (built_New _ _ context.Background [WithFunc (constant VNil)]
                (built_New _ _ context.Background
                   [WithParameters [VInt 5]; WithFunc (constant VNil)] built_init))
             eq_refl).
  - reflexivity.
Defined.
